(** * ContextDojo: the conversation knowledge-graph engine

    A shallow embedding of the graph store ([triggerGraphUpdate] in
    [src/App.tsx]) and of the layout helpers ([computeDepths],
    [getPathToRoot] and the node preparation in
    [src/components/MindMap.tsx]), followed by the properties the
    specification states about them.

    Conventions of the embedding:
    - a JavaScript array is a [list]; [arr[i] = v] for an index in range is
      stdpp's [<[i:=v]>]; [push] appends at the end;
    - [Array.prototype.findIndex] / [find] are stdpp's [list_find], which
      returns the first position satisfying the predicate together with the
      element stored there;
    - an object used as a dictionary ([Record<string, T>]) and a [Map] are a
      [gmap string T] (keys are taken not to name a property inherited from
      [Object.prototype]); a [Set<string>] is a [gset string];
    - a string is a [string] of 8-bit characters; [toLowerCase] folds the
      ASCII capitals, the proofs only use that it is a function;
    - [number]s that hold counters are [nat]; coordinates are rationals. *)

From Stdlib Require Import Ascii QArith.
From stdpp Require Import gmap strings list fin_maps.
From Equations Require Import Equations.

Local Open Scope string_scope.
Local Open Scope nat_scope.
Local Open Scope list_scope.
Local Open Scope stdpp_scope.

#[local] Set Warnings "-clear-no-such-hyp".

(** ** Strings *)

Definition lowerChar (c : ascii) : ascii :=
  let n := N_of_ascii c in
  if ((65 <=? n) && (n <=? 90))%N then ascii_of_N (n + 32) else c.

Fixpoint toLowerCase (s : string) : string :=
  match s with
  | EmptyString => EmptyString
  | String c rest => String (lowerChar c) (toLowerCase rest)
  end.

(** ** Data model ([src/types.ts]) *)

Inductive NodeType := root | concept | entity | action | emotion.
Inductive Status := active | potential.

#[global] Instance NodeType_eq_dec : EqDecision NodeType.
Proof. solve_decision. Defined.
#[global] Instance Status_eq_dec : EqDecision Status.
Proof. solve_decision. Defined.

(** [description] is not declared in [types.ts]; the insight card of
    [MindMap.tsx] reads [selectedNode.description], so the field is kept
    here as an optional property ([None]: the property is absent). *)
Record MindMapNode := {
  id : string;
  label : string;
  group : nat;
  type : NodeType;
  status : Status;
  description : option string
}.

(** Both ends are ids. (The component also accepts links whose ends the
    layout library has replaced by node objects and reads their [id]; the
    links of the state never take that form, the simulation runs on
    copies.) *)
Record MindMapLink := {
  source : string;
  target : string
}.

#[global] Instance MindMapNode_eq_dec : EqDecision MindMapNode.
Proof. solve_decision. Defined.
#[global] Instance MindMapLink_eq_dec : EqDecision MindMapLink.
Proof. solve_decision. Defined.

Inductive ConversationMode := topical | social | debate | adaptive.
Inductive Role := user | model.

Record ChatMessage := {
  role : Role;
  text : string;
  translatedText : option string;
  timestamp : Z
}.

Record DojoState := {
  mode : option ConversationMode;
  currentTopic : string;
  mindMapNodes : list MindMapNode;
  mindMapLinks : list MindMapLink;
  conversationHistory : list ChatMessage;
  lastGuidance : option string
}.

(** One element of [GraphUpdate.nodes]. The declared type has [label],
    [type], [status] and [parent]; the response schema of
    [generateGraphUpdates] also requires [description], so the parsed
    objects carry it. *)
Inductive UpdateType := upd_concept | upd_entity | upd_action | upd_emotion.

Definition nodeType (t : UpdateType) : NodeType :=
  match t with
  | upd_concept => concept
  | upd_entity => entity
  | upd_action => action
  | upd_emotion => emotion
  end.

Record GraphUpdateNode := {
  upd_label : string;
  upd_type : UpdateType;
  upd_status : Status;
  upd_parent : string;
  upd_description : string
}.

(** ** The graph store ([src/App.tsx]) *)

Definition INITIAL_NODES : list MindMapNode :=
  [ {| id := "Context"; label := "Context"; group := 1; type := root;
       status := active; description := None |} ].

Definition greeting : string :=
  "Hello! I'm ContextDojo. I'm ready to practice. What's on your mind today?".

(** [now] stands for the [new Date()] of the module's evaluation. *)
Definition INITIAL_STATE (now : Z) : DojoState :=
  {| mode := Some adaptive;
     currentTopic := "Context";
     mindMapNodes := INITIAL_NODES;
     mindMapLinks := [];
     conversationHistory :=
       [ {| role := model; text := greeting;
            translatedText := Some greeting; timestamp := now |} ];
     lastGuidance := None |}.

(** [ex.label.toLowerCase() === s.toLowerCase()] *)
Definition sameLabel (s : string) (ex : MindMapNode) : Prop :=
  toLowerCase (label ex) = toLowerCase s.

#[global] Instance sameLabel_dec s ex : Decision (sameLabel s ex).
Proof. unfold sameLabel. apply _. Defined.

(** [{ ...existingNode, status: s }] *)
Definition withStatus (n : MindMapNode) (s : Status) : MindMapNode :=
  {| id := id n; label := label n; group := group n; type := type n;
     status := s; description := description n |}.

(** The test of [nextLinks.some(...)]: the pair is linked, in either
    direction. *)
Definition linksPair (a b : string) (l : MindMapLink) : Prop :=
  (source l = a ∧ target l = b) ∨ (source l = b ∧ target l = a).

#[global] Instance linksPair_dec a b l : Decision (linksPair a b l).
Proof. unfold linksPair. apply _. Defined.

(** [a || b] on the results of two [find]s: an object is truthy. *)
Definition orElse {A} (a b : option A) : option A :=
  match a with Some _ => a | None => b end.

(** [const newNode: MindMapNode = { id: n.label, label: n.label, type:
    n.type, status: n.status, group: 2 }] *)
Definition newNode (n : GraphUpdateNode) : MindMapNode :=
  {| id := upd_label n; label := upd_label n; group := 2;
     type := nodeType (upd_type n); status := upd_status n;
     description := None |}.

(** The body of [updates.nodes.forEach(n => ...)], on the two arrays
    [nextNodes] and [nextLinks] it mutates. *)
Definition mergeNode (acc : list MindMapNode * list MindMapLink)
    (n : GraphUpdateNode) : list MindMapNode * list MindMapLink :=
  let '(nextNodes, nextLinks) := acc in
  match list_find (sameLabel (upd_label n)) nextNodes with
  | Some (existingNodeIndex, existingNode) =>
      if decide (status existingNode = potential ∧ upd_status n = active)
      then (<[existingNodeIndex := withStatus existingNode active]> nextNodes,
            nextLinks)
      else (nextNodes, nextLinks)
  | None =>
      let newNode := newNode n in
      let nextNodes := nextNodes ++ [newNode] in
      let parentNode :=
        orElse (snd <$> list_find (sameLabel (upd_parent n)) nextNodes)
               (snd <$> list_find (λ ex, label ex = "Context") nextNodes) in
      match parentNode with
      | Some parentNode =>
          if decide (Exists (linksPair (id parentNode) (id newNode)) nextLinks)
          then (nextNodes, nextLinks)
          else (nextNodes,
                nextLinks ++ [ {| source := id parentNode;
                                  target := id newNode |} ])
      | None => (nextNodes, nextLinks)
      end
  end.

(** The state updater passed to [setDojoState]. *)
Definition applyUpdates (updates : list GraphUpdateNode) (prev : DojoState)
    : DojoState :=
  let '(nextNodes, nextLinks) :=
    fold_left mergeNode updates (mindMapNodes prev, mindMapLinks prev) in
  {| mode := mode prev;
     currentTopic := currentTopic prev;
     mindMapNodes := nextNodes;
     mindMapLinks := nextLinks;
     conversationHistory := conversationHistory prev;
     lastGuidance := lastGuidance prev |}.

(** [triggerGraphUpdate] once the topic-extraction service has answered
    with [updates]: the state is replaced only for a non-empty answer. *)
Definition triggerGraphUpdate (updates : list GraphUpdateNode)
    (dojoState : DojoState) : DojoState :=
  if decide (0 < length updates) then applyUpdates updates dojoState
  else dojoState.

(** A session: the answers of the service, merged one after the other. *)
Definition session (answers : list (list GraphUpdateNode)) (s : DojoState)
    : DojoState :=
  fold_left (λ st updates, triggerGraphUpdate updates st) answers s.

(** ** Depth computation ([computeDepths], [src/components/MindMap.tsx]) *)

(** The body of [linkList.forEach(l => ...)] that fills [adj]. *)
Definition addLink (adj : gmap string (list string)) (l : MindMapLink)
    : gmap string (list string) :=
  let s := source l in
  let t := target l in
  let adj := if decide (is_Some (adj !! s)) then adj else <[s := []]> adj in
  <[s := default [] (adj !! s) ++ [t]]> adj.

Definition buildAdj (linkList : list MindMapLink) : gmap string (list string) :=
  fold_left addLink linkList ∅.

(** The variables of the traversal. *)
Record BfsState := {
  queue : list (string * nat);
  depths : gmap string nat;
  visited : gset string;
  maxDepth : nat
}.

(** The body of [adj[id].forEach(childId => ...)]. *)
Definition visitChild (d : nat) (st : BfsState) (childId : string) : BfsState :=
  if decide (childId ∈ visited st) then st
  else {| queue := queue st ++ [(childId, d + 1)];
          depths := <[childId := d + 1]> (depths st);
          visited := {[childId]} ∪ visited st;
          maxDepth := maxDepth st |}.

(** The body of the [while] loop, after [queue.shift()] returned [(id, d)]
    and left [rest] in the queue. *)
Definition bfsIteration (adj : gmap string (list string)) (id : string)
    (d : nat) (rest : list (string * nat)) (st : BfsState) : BfsState :=
  let st := {| queue := rest; depths := depths st; visited := visited st;
               maxDepth := Nat.max (maxDepth st) d |} in
  match adj !! id with
  | Some children => fold_left (visitChild d) children st
  | None => st
  end.

(** Every id that a traversal over [adj] can ever enqueue. *)
Definition adjTargets (adj : gmap string (list string)) : gset string :=
  list_to_set (mjoin (snd <$> map_to_list adj)).

(** The loop variant: the queue shrinks unless an unvisited id is taken. *)
Definition bfsMeasure (adj : gmap string (list string)) (st : BfsState) : nat :=
  length (queue st) + size (adjTargets adj ∖ visited st).

Lemma adjTargets_children adj id children :
  adj !! id = Some children → list_to_set children ⊆ adjTargets adj.
Proof.
  intros Hadj c Hc. apply elem_of_list_to_set in Hc.
  unfold adjTargets. apply elem_of_list_to_set, list_elem_of_join.
  exists children. split; [done|].
  apply list_elem_of_fmap. exists (id, children). split; [done|].
  by apply elem_of_map_to_list.
Qed.

Lemma size_difference_fresh (U V : gset string) (c : string) :
  c ∈ U → c ∉ V → size (U ∖ V) = S (size (U ∖ ({[c]} ∪ V))).
Proof.
  intros HU HV.
  assert (U ∖ V = {[c]} ∪ (U ∖ ({[c]} ∪ V))) as ->.
  { apply set_eq. intros z. destruct (decide (z = c)) as [->|]; set_solver. }
  rewrite size_union; [|set_solver]. rewrite size_singleton. lia.
Qed.

Lemma visitChild_measure adj d st c :
  c ∈ adjTargets adj →
  bfsMeasure adj (visitChild d st c) ≤ bfsMeasure adj st.
Proof.
  intros Hc. unfold visitChild, bfsMeasure. case_decide as Hv; [done|]. simpl.
  rewrite length_app. simpl.
  rewrite (size_difference_fresh (adjTargets adj) (visited st) c) by done. lia.
Qed.

Lemma visitChildren_measure adj d children st :
  list_to_set children ⊆ adjTargets adj →
  bfsMeasure adj (fold_left (visitChild d) children st) ≤ bfsMeasure adj st.
Proof.
  revert st. induction children as [|c cs IH]; intros st Hsub; simpl; [done|].
  etrans; [apply IH; set_solver|]. apply visitChild_measure. set_solver.
Qed.

Lemma bfsIteration_measure adj id d rest st :
  queue st = (id, d) :: rest →
  bfsMeasure adj (bfsIteration adj id d rest st) < bfsMeasure adj st.
Proof.
  intros Hq. unfold bfsIteration.
  set (st1 := {| queue := rest; depths := depths st; visited := visited st;
                 maxDepth := Nat.max (maxDepth st) d |}).
  assert (bfsMeasure adj st1 < bfsMeasure adj st) as Hlt.
  { unfold bfsMeasure. rewrite Hq. simpl. lia. }
  destruct (adj !! id) as [children|] eqn:Hadj; [|done].
  eapply Nat.le_lt_trans; [|exact Hlt].
  apply visitChildren_measure. by eapply adjTargets_children.
Qed.

(** A value together with the equation that it is the one matched on. *)
Definition inspect {A : Type} (x : A) : { y : A | x = y } := exist _ x eq_refl.

(** [while (queue.length > 0) { ... }] *)
Equations? bfsLoop (adj : gmap string (list string)) (st : BfsState)
    : BfsState by wf (bfsMeasure adj st) lt :=
  bfsLoop adj st with inspect (queue st) := {
    | exist _ nil _ => st
    | exist _ (cons (id, d) rest) Hq => bfsLoop adj (bfsIteration adj id d rest st) }.
Proof. by apply bfsIteration_measure. Qed.

(** The result [{ depths, maxDepth }]. *)
Record Depths := {
  res_depths : gmap string nat;
  res_maxDepth : nat
}.

Definition bfsStart : BfsState :=
  {| queue := [("Context", 0)];
     depths := <["Context" := 0]> ∅;
     visited := {["Context"]};
     maxDepth := 0 |}.

Definition computeDepths (nodeList : list MindMapNode)
    (linkList : list MindMapLink) : Depths :=
  let adj := buildAdj linkList in
  let st := bfsLoop adj bfsStart in
  {| res_depths := depths st; res_maxDepth := maxDepth st |}.

(** [depths[id] ?? 0], the depth the layout uses for a node. *)
Definition depthOf (r : Depths) (id : string) : nat :=
  default 0 (res_depths r !! id).

(** ** Path to the root ([getPathToRoot], [src/components/MindMap.tsx]) *)

(** The variables of the walk. *)
Record PathState := {
  path : gset string;
  currentId : string;
  foundParent : bool;
  iterations : nat
}.

(** The body of the [while] loop. *)
Definition pathIteration (currentLinks : list MindMapLink) (st : PathState)
    : PathState :=
  let parentLink :=
    snd <$> list_find (λ l, target l = currentId st) currentLinks in
  match parentLink with
  | Some parentLink =>
      let sourceId := source parentLink in
      if decide (sourceId ∈ path st)
      then {| path := path st; currentId := currentId st;
              foundParent := false; iterations := iterations st + 1 |}
      else {| path := {[sourceId]} ∪ path st; currentId := sourceId;
              foundParent := true; iterations := iterations st + 1 |}
  | None =>
      {| path := path st; currentId := currentId st;
         foundParent := false; iterations := iterations st + 1 |}
  end.

(** [foundParent && iterations < 100] *)
Definition pathContinues (st : PathState) : bool :=
  foundParent st && bool_decide (iterations st < 100).

Lemma pathIteration_iterations currentLinks st :
  iterations (pathIteration currentLinks st) = iterations st + 1.
Proof.
  unfold pathIteration.
  destruct (snd <$> list_find _ currentLinks); [case_decide|]; done.
Qed.

(** [while (foundParent && iterations < 100) { ... }] *)
Equations? pathLoop (currentLinks : list MindMapLink) (st : PathState)
    : PathState by wf (100 - iterations st) lt :=
  pathLoop currentLinks st with inspect (pathContinues st) := {
    | exist _ true Hc => pathLoop currentLinks (pathIteration currentLinks st)
    | exist _ false _ => st }.
Proof.
  rewrite pathIteration_iterations.
  unfold pathContinues in Hc. apply andb_true_iff in Hc as [_ Hc].
  apply bool_decide_eq_true in Hc. lia.
Qed.

Definition pathStart (targetId : string) : PathState :=
  {| path := {[targetId]}; currentId := targetId;
     foundParent := true; iterations := 0 |}.

Definition getPathToRoot (targetId : string) (currentLinks : list MindMapLink)
    : gset string :=
  path (pathLoop currentLinks (pathStart targetId)).

(** The number of times the loop body ran, for the bound on the walk. *)
Definition getPathToRoot_iterations (targetId : string)
    (currentLinks : list MindMapLink) : nat :=
  iterations (pathLoop currentLinks (pathStart targetId)).

(** ** Node preparation of the layout ([src/components/MindMap.tsx]) *)

Definition Y_SPACING : nat := 120.
Definition PADDING_TOP : nat := 60.

(** [containerRef.current.clientWidth || 800] *)
Definition containerWidth (clientWidth : nat) : nat :=
  if decide (clientWidth = 0) then 800 else clientWidth.


(** A counter read as a coordinate. *)
Definition num (n : nat) : Q := inject_Z (Z.of_nat n).

(** An entry of the position cache [nodePositions]. *)
Record Position := {
  x : Q;
  y : Q;
  vx : Q;
  vy : Q
}.

(** [{ ...n, x, y, vx, vy }] *)
Record SimulationNode := {
  datum : MindMapNode;
  position : Position
}.

Definition simulationNode (containerWidth : nat)
    (nodePositions : gmap string Position) (depths : Depths)
    (n : MindMapNode) : SimulationNode :=
  let oldPos := nodePositions !! id n in
  let depth := depthOf depths (id n) in
  {| datum := n;
     position :=
       {| x := match oldPos with
               | Some oldPos => x oldPos
               | None => (num containerWidth / 2)%Q
               end;
          y := match oldPos with
               | Some oldPos => y oldPos
               | None => num (depth * Y_SPACING + PADDING_TOP)
               end;
          vx := match oldPos with Some oldPos => vx oldPos | None => 0%Q end;
          vy := match oldPos with Some oldPos => vy oldPos | None => 0%Q end
       |} |}.

(** [nodes.map(n => ...)], with the depths computed just before. *)
Definition simulationNodes (clientWidth : nat)
    (nodePositions : gmap string Position)
    (nodes : list MindMapNode) (links : list MindMapLink)
    : list SimulationNode :=
  let containerWidth := containerWidth clientWidth in
  let depths := computeDepths nodes links in
  simulationNode containerWidth nodePositions depths <$> nodes.

(** The earlier variant of the component kept beside the current one
    ([src/unnamed/part_002]): [computeDepths] returns the depths only and
    a node without cached position starts at the fixed height 50. *)
Module EarlierLayout.

Definition computeDepths (nodeList : list MindMapNode)
    (linkList : list MindMapLink) : gmap string nat :=
  depths (bfsLoop (buildAdj linkList) bfsStart).

Definition simulationNode (width : nat)
    (nodePositions : gmap string Position) (n : MindMapNode)
    : SimulationNode :=
  let oldPos := nodePositions !! id n in
  {| datum := n;
     position :=
       {| x := match oldPos with
               | Some oldPos => x oldPos
               | None => (num width / 2)%Q
               end;
          y := match oldPos with Some oldPos => y oldPos | None => 50%Q end;
          vx := match oldPos with Some oldPos => vx oldPos | None => 0%Q end;
          vy := match oldPos with Some oldPos => vy oldPos | None => 0%Q end
       |} |}.

Definition simulationNodes (clientWidth : nat)
    (nodePositions : gmap string Position) (nodes : list MindMapNode)
    : list SimulationNode :=
  simulationNode (containerWidth clientWidth) nodePositions <$> nodes.

End EarlierLayout.

(** * Properties of the graph store *)

(** ** How one node and the node array evolve *)

(** The only change a merge makes to a stored node. *)
Definition promotes (a b : MindMapNode) : Prop :=
  b = a ∨ (status a = potential ∧ b = withStatus a active).

(** The node array after some merges: the old positions, each possibly
    promoted, followed by the nodes created since. *)
Definition grows (ns ns' : list MindMapNode) : Prop :=
  ∃ front tail, ns' = front ++ tail ∧ Forall2 promotes ns front.

Lemma promotes_refl a : promotes a a.
Proof. by left. Qed.

Lemma promotes_trans a b c : promotes a b → promotes b c → promotes a c.
Proof.
  intros [->|[Ha ->]] [->|[Hb ->]]; unfold promotes; auto.
Qed.

Lemma promotes_label a b : promotes a b → label b = label a.
Proof. by intros [->|[_ ->]]. Qed.

Lemma promotes_id a b : promotes a b → id b = id a.
Proof. by intros [->|[_ ->]]. Qed.

Lemma promotes_active a b : promotes a b → status a = active → status b = active.
Proof. by intros [->|[_ ->]]. Qed.

Lemma promotes_sameLabel s a b : promotes a b → sameLabel s b ↔ sameLabel s a.
Proof. intros H. unfold sameLabel. by rewrite (promotes_label _ _ H). Qed.

Lemma Forall2_promotes_refl ns : Forall2 promotes ns ns.
Proof. induction ns; constructor; auto using promotes_refl. Qed.

Lemma grows_refl ns : grows ns ns.
Proof.
  exists ns, []. split; [by rewrite app_nil_r|apply Forall2_promotes_refl].
Qed.

Lemma grows_trans ns1 ns2 ns3 : grows ns1 ns2 → grows ns2 ns3 → grows ns1 ns3.
Proof.
  intros (f1 & t1 & -> & H1) (f2 & t2 & -> & H2).
  apply Forall2_app_inv_l in H2 as (g1 & g2 & Hg1 & Hg2 & ->).
  exists g1, (g2 ++ t2). split; [by rewrite app_assoc|].
  eapply Forall2_trans; [|exact H1|exact Hg1]. apply promotes_trans.
Qed.

Lemma grows_app ns tail : grows ns (ns ++ tail).
Proof. exists ns, tail. split; [done|apply Forall2_promotes_refl]. Qed.

Lemma grows_insert ns i ex :
  ns !! i = Some ex → status ex = potential →
  grows ns (<[i := withStatus ex active]> ns).
Proof.
  intros Hi Hs. exists (<[i := withStatus ex active]> ns), [].
  split; [by rewrite app_nil_r|].
  rewrite <-(list_insert_id ns i ex) at 1 by done.
  apply Forall2_insert; [apply Forall2_promotes_refl|by right].
Qed.

Lemma grows_length ns ns' : grows ns ns' → length ns ≤ length ns'.
Proof.
  intros (f & t & -> & H). rewrite length_app, <-(Forall2_length _ _ _ H). lia.
Qed.

Lemma grows_lookup ns ns' i a :
  grows ns ns' → ns !! i = Some a → ∃ b, ns' !! i = Some b ∧ promotes a b.
Proof.
  intros (f & t & -> & H) Hi.
  destruct (Forall2_lookup_l _ _ _ _ _ H Hi) as (b & Hb & Hab).
  exists b. split; [by apply lookup_app_l_Some|done].
Qed.

Lemma grows_lookup_inv ns ns' i b :
  grows ns ns' → ns' !! i = Some b → i < length ns →
  ∃ a, ns !! i = Some a ∧ promotes a b.
Proof.
  intros Hg Hb Hlt. destruct (lookup_lt_is_Some_2 ns i Hlt) as [a Ha].
  destruct (grows_lookup _ _ _ _ Hg Ha) as (b' & Hb' & Hab).
  exists a. split; [done|]. congruence.
Qed.

(** The first node carrying a given label keeps its position. *)
Lemma grows_list_find s ns ns' i ex :
  grows ns ns' → list_find (sameLabel s) ns = Some (i, ex) →
  ∃ ex', list_find (sameLabel s) ns' = Some (i, ex') ∧ promotes ex ex'.
Proof.
  intros Hg (Hi & HP & Hmin)%list_find_Some.
  destruct (grows_lookup _ _ _ _ Hg Hi) as (ex' & Hi' & Hp).
  exists ex'. split; [|done]. apply list_find_Some. split_and!; [done| |].
  - by apply (promotes_sameLabel s) in Hp as ->.
  - intros j y Hj Hlt HPy.
    assert (j < length ns) as Hjl.
    { apply lookup_lt_Some in Hi. lia. }
    destruct (grows_lookup_inv _ _ _ _ Hg Hj Hjl) as (a & Ha & Hpa).
    apply (Hmin j a Ha Hlt). by apply (promotes_sameLabel s) in Hpa as <-.
Qed.

(** ** One candidate *)

Arguments mergeNode : simpl never.

Lemma mergeNode_found ns ls c i ex :
  list_find (sameLabel (upd_label c)) ns = Some (i, ex) →
  mergeNode (ns, ls) c
  = (if decide (status ex = potential ∧ upd_status c = active)
     then <[i := withStatus ex active]> ns else ns, ls).
Proof. intros H. unfold mergeNode. rewrite H. by case_decide. Qed.

(** The parent that a new node is linked under: a node of the extended
    array. *)
Definition parentOf (ns : list MindMapNode) (c : GraphUpdateNode)
    : option MindMapNode :=
  orElse (snd <$> list_find (sameLabel (upd_parent c)) (ns ++ [newNode c]))
         (snd <$> list_find (λ ex, label ex = "Context") (ns ++ [newNode c])).

Lemma mergeNode_new ns ls c :
  list_find (sameLabel (upd_label c)) ns = None →
  mergeNode (ns, ls) c
  = (ns ++ [newNode c],
     match parentOf ns c with
     | Some p =>
         if decide (Exists (linksPair (id p) (upd_label c)) ls) then ls
         else ls ++ [ {| source := id p; target := upd_label c |} ]
     | None => ls
     end).
Proof.
  intros H. unfold mergeNode. rewrite H. fold (parentOf ns c).
  destruct (parentOf ns c) as [p|]; [|done]. simpl. by case_decide.
Qed.

Lemma parentOf_elem ns c p : parentOf ns c = Some p → p ∈ ns ++ [newNode c].
Proof.
  unfold parentOf, orElse. intros H.
  destruct (list_find (sameLabel _) _) as [[j q]|] eqn:E1; simpl in H.
  - inversion H; subst. apply list_find_Some in E1 as (E1 & _).
    by eapply list_elem_of_lookup_2.
  - destruct (list_find (λ ex, label ex = "Context") _) as [[j q]|] eqn:E2;
      simpl in H; [|done].
    inversion H; subst. apply list_find_Some in E2 as (E2 & _).
    by eapply list_elem_of_lookup_2.
Qed.

Lemma mergeNode_grows ns ls c : grows ns (mergeNode (ns, ls) c).1.
Proof.
  destruct (list_find (sameLabel (upd_label c)) ns) as [[i ex]|] eqn:E.
  - rewrite (mergeNode_found _ _ _ _ _ E). simpl.
    case_decide as Hd; [|apply grows_refl].
    apply list_find_Some in E as (Hi & _). apply grows_insert; tauto.
  - rewrite (mergeNode_new _ _ _ E). simpl. apply grows_app.
Qed.

(** All the candidates of one answer. *)
Definition mergeAll (updates : list GraphUpdateNode)
    (acc : list MindMapNode * list MindMapLink) :=
  fold_left mergeNode updates acc.

Lemma mergeAll_cons c cs acc :
  mergeAll (c :: cs) acc = mergeAll cs (mergeNode acc c).
Proof. done. Qed.

Lemma mergeAll_grows updates ns ls : grows ns (mergeAll updates (ns, ls)).1.
Proof.
  revert ns ls. induction updates as [|c cs IH]; intros ns ls.
  - apply grows_refl.
  - rewrite mergeAll_cons.
    destruct (mergeNode (ns, ls) c) as [ns1 ls1] eqn:E.
    eapply grows_trans; [|apply IH].
    pose proof (mergeNode_grows ns ls c) as H. by rewrite E in H.
Qed.

Lemma triggerGraphUpdate_mergeAll updates s :
  mindMapNodes (triggerGraphUpdate updates s)
  = (mergeAll updates (mindMapNodes s, mindMapLinks s)).1
  ∧ mindMapLinks (triggerGraphUpdate updates s)
  = (mergeAll updates (mindMapNodes s, mindMapLinks s)).2.
Proof.
  unfold triggerGraphUpdate, applyUpdates, mergeAll. case_decide as Hl.
  - by destruct (fold_left _ _ _).
  - destruct updates; [done|simpl in Hl; lia].
Qed.

Lemma triggerGraphUpdate_grows updates s :
  grows (mindMapNodes s) (mindMapNodes (triggerGraphUpdate updates s)).
Proof.
  rewrite (proj1 (triggerGraphUpdate_mergeAll updates s)).
  apply mergeAll_grows.
Qed.

Lemma session_grows answers s :
  grows (mindMapNodes s) (mindMapNodes (session answers s)).
Proof.
  revert s. induction answers as [|u us IH]; intros s; simpl.
  - apply grows_refl.
  - eapply grows_trans; [apply triggerGraphUpdate_grows|apply IH].
Qed.

(** ** Idempotence *)

(** A candidate is settled in a node array when merging it changes nothing:
    its label is found and, should it be active, so is the node found. *)
Definition settled (ns : list MindMapNode) (c : GraphUpdateNode) : Prop :=
  ∃ i ex, list_find (sameLabel (upd_label c)) ns = Some (i, ex)
          ∧ (upd_status c = active → status ex = active).

Lemma settled_grows ns ns' c : grows ns ns' → settled ns c → settled ns' c.
Proof.
  intros Hg (i & ex & Hf & Hs).
  destruct (grows_list_find _ _ _ _ _ Hg Hf) as (ex' & Hf' & Hp).
  exists i, ex'. split; [done|]. intros Ha. eapply promotes_active; eauto.
Qed.

Lemma settled_unchanged ns ls c : settled ns c → mergeNode (ns, ls) c = (ns, ls).
Proof.
  intros (i & ex & Hf & Hs). rewrite (mergeNode_found _ _ _ _ _ Hf).
  case_decide as Hd; [|done]. destruct Hd as [Hp Ha].
  rewrite (Hs Ha) in Hp. done.
Qed.

Lemma mergeNode_settles ns ls c : settled (mergeNode (ns, ls) c).1 c.
Proof.
  destruct (list_find (sameLabel (upd_label c)) ns) as [[i ex]|] eqn:E.
  - rewrite (mergeNode_found _ _ _ _ _ E). simpl. case_decide as Hd.
    + destruct Hd as [Hp Ha].
      pose proof E as (Hi & _)%list_find_Some.
      destruct (grows_list_find _ _ _ _ _ (grows_insert _ _ _ Hi Hp) E)
        as (ex' & Hf' & _).
      exists i, ex'. split; [done|]. intros _.
      apply list_find_Some in Hf' as (Hi' & _).
      rewrite list_lookup_insert_eq in Hi' by (by eapply lookup_lt_Some).
      by inversion Hi'.
    + exists i, ex. split; [done|]. intros Ha.
      destruct (status ex) eqn:Hs; [done|]. tauto.
  - rewrite (mergeNode_new _ _ _ E). simpl.
    exists (length ns), (newNode c). split; [|done].
    rewrite list_find_app_r by done. simpl.
    rewrite decide_True by done. done.
Qed.

Lemma mergeAll_settles updates ns ls :
  Forall (settled (mergeAll updates (ns, ls)).1) updates.
Proof.
  revert ns ls. induction updates as [|c cs IH]; intros ns ls; [done|].
  rewrite mergeAll_cons.
  pose proof (mergeNode_settles ns ls c) as Hc.
  destruct (mergeNode (ns, ls) c) as [ns1 ls1]. simpl in Hc.
  constructor; [|apply IH].
  eapply settled_grows; [apply mergeAll_grows|done].
Qed.

Lemma mergeAll_settled updates ns ls :
  Forall (settled ns) updates → mergeAll updates (ns, ls) = (ns, ls).
Proof.
  induction 1 as [|c cs Hc _ IH]; [done|].
  by rewrite mergeAll_cons, settled_unchanged.
Qed.

(** C1. Merging one candidate list twice gives exactly the state that
    merging it once gives: the second application changes neither the node
    collection nor the link collection (nor any other field). *)
Theorem merge_idempotent (updates : list GraphUpdateNode) (s : DojoState) :
  triggerGraphUpdate updates (triggerGraphUpdate updates s)
  = triggerGraphUpdate updates s.
Proof.
  unfold triggerGraphUpdate. case_decide as Hl; [|done].
  unfold applyUpdates at 1.
  pose proof (mergeAll_settles updates (mindMapNodes s) (mindMapLinks s)) as H.
  unfold applyUpdates. fold (mergeAll updates (mindMapNodes s, mindMapLinks s)).
  destruct (mergeAll updates (mindMapNodes s, mindMapLinks s)) as [ns1 ls1].
  simpl in *. fold (mergeAll updates (ns1, ls1)).
  by rewrite (mergeAll_settled _ _ _ H).
Qed.

(** ** Status only moves from potential to active *)

(** C2. Across any sequence of merges a stored node keeps its position, its
    id, its label and its type; a node that is active stays active, and the
    only change of status is from potential to active. *)
Theorem status_monotonic (answers : list (list GraphUpdateNode))
    (s : DojoState) (i : nat) (n : MindMapNode) :
  mindMapNodes s !! i = Some n →
  ∃ n', mindMapNodes (session answers s) !! i = Some n'
        ∧ id n' = id n ∧ label n' = label n ∧ type n' = type n
        ∧ (status n = active → status n' = active)
        ∧ (status n' = status n
           ∨ (status n = potential ∧ status n' = active)).
Proof.
  intros Hi.
  destruct (grows_lookup _ _ _ _ (session_grows answers s) Hi) as (n' & Hn' & Hp).
  exists n'. split; [done|].
  destruct Hp as [->|[Hs ->]]; simpl; split_and!; auto.
Qed.

(** ** Labels stay distinct up to case *)

(** No two positions hold labels that are equal when compared
    case-insensitively. *)
Definition distinctLabels (ns : list MindMapNode) : Prop :=
  ∀ i j a b, ns !! i = Some a → ns !! j = Some b →
             toLowerCase (label a) = toLowerCase (label b) → i = j.

Definition foldedLabels (ns : list MindMapNode) : list string :=
  (λ n, toLowerCase (label n)) <$> ns.

Lemma distinctLabels_NoDup ns : distinctLabels ns ↔ NoDup (foldedLabels ns).
Proof.
  unfold distinctLabels, foldedLabels. rewrite NoDup_alt. split.
  - intros H i j x Hi Hj. rewrite list_lookup_fmap in Hi, Hj.
    destruct (ns !! i) as [a|] eqn:Ea; [|done].
    destruct (ns !! j) as [b|] eqn:Eb; [|done].
    simpl in *. eapply H; eauto. congruence.
  - intros H i j a b Hi Hj Hab. apply (H i j (toLowerCase (label a))).
    + by rewrite list_lookup_fmap, Hi.
    + by rewrite list_lookup_fmap, Hj, Hab.
Qed.

Lemma foldedLabels_insert ns i ex s :
  ns !! i = Some ex →
  foldedLabels (<[i := withStatus ex s]> ns) = foldedLabels ns.
Proof.
  intros Hi. unfold foldedLabels. rewrite list_fmap_insert. simpl.
  apply list_insert_id. by rewrite list_lookup_fmap, Hi.
Qed.

Lemma mergeNode_distinctLabels ns ls c :
  distinctLabels ns → distinctLabels (mergeNode (ns, ls) c).1.
Proof.
  rewrite !distinctLabels_NoDup. intros Hnd.
  destruct (list_find (sameLabel (upd_label c)) ns) as [[i ex]|] eqn:E.
  - rewrite (mergeNode_found _ _ _ _ _ E). simpl. case_decide; [|done].
    apply list_find_Some in E as (Hi & _). by rewrite foldedLabels_insert.
  - rewrite (mergeNode_new _ _ _ E). simpl.
    unfold foldedLabels. rewrite fmap_app. simpl.
    apply NoDup_app. split_and!; [done| |apply NoDup_singleton].
    intros x Hx ->%list_elem_of_singleton.
    apply list_elem_of_fmap in Hx as (n & Hn & Hin).
    apply list_find_None in E. rewrite Forall_forall in E.
    apply (E n Hin). unfold sameLabel. done.
Qed.

Lemma mergeAll_distinctLabels updates ns ls :
  distinctLabels ns → distinctLabels (mergeAll updates (ns, ls)).1.
Proof.
  revert ns ls. induction updates as [|c cs IH]; intros ns ls Hd; [done|].
  rewrite mergeAll_cons.
  pose proof (mergeNode_distinctLabels ns ls c Hd) as H.
  destruct (mergeNode (ns, ls) c) as [ns1 ls1]. by apply IH.
Qed.

(** C3. If the labels of the stored nodes are pairwise distinct
    case-insensitively, they still are after a merge of any candidate list:
    a candidate whose label differs from a present one only by case never
    adds a node. *)
Theorem case_insensitive_dedup (updates : list GraphUpdateNode)
    (s : DojoState) :
  distinctLabels (mindMapNodes s) →
  distinctLabels (mindMapNodes (triggerGraphUpdate updates s)).
Proof.
  intros Hd. rewrite (proj1 (triggerGraphUpdate_mergeAll updates s)).
  by apply mergeAll_distinctLabels.
Qed.

(** ** Sample data: the scenarios of the specification *)

Definition topic (lbl : string) (st : Status) (parent : string)
    : GraphUpdateNode :=
  {| upd_label := lbl; upd_type := upd_concept; upd_status := st;
     upd_parent := parent; upd_description := "Worth a conversation" |}.

Definition stored (lbl : string) (st : Status) : MindMapNode :=
  {| id := lbl; label := lbl; group := 2; type := concept; status := st;
     description := None |}.

Definition stateOf (ns : list MindMapNode) (ls : list MindMapLink)
    : DojoState :=
  {| mode := Some adaptive; currentTopic := "Context";
     mindMapNodes := ns; mindMapLinks := ls;
     conversationHistory := []; lastGuidance := None |}.

Definition travelSuggested : DojoState :=
  stateOf (INITIAL_NODES ++ [stored "Travel" potential])
          [ {| source := "Context"; target := "Travel" |} ].

Example scenarioA :
  let s := triggerGraphUpdate [topic "Travel" active "Context"]
             (stateOf INITIAL_NODES []) in
  mindMapNodes s = INITIAL_NODES ++ [stored "Travel" active]
  ∧ mindMapLinks s = [ {| source := "Context"; target := "Travel" |} ].
Proof. vm_compute. done. Qed.

Example scenarioB :
  let s := triggerGraphUpdate [topic "travel" active "Context"]
             travelSuggested in
  mindMapNodes s = INITIAL_NODES ++ [stored "Travel" active]
  ∧ mindMapLinks s = mindMapLinks travelSuggested.
Proof. vm_compute. done. Qed.

Example scenarioC :
  let s := triggerGraphUpdate [topic "Recipes" potential "Unknown"]
             (stateOf (INITIAL_NODES ++ [stored "Food" active])
                      [ {| source := "Context"; target := "Food" |} ]) in
  mindMapNodes s
  = INITIAL_NODES ++ [stored "Food" active; stored "Recipes" potential]
  ∧ mindMapLinks s = [ {| source := "Context"; target := "Food" |};
                       {| source := "Context"; target := "Recipes" |} ].
Proof. vm_compute. done. Qed.

Example scenarioD :
  let s := stateOf (INITIAL_NODES ++ [stored "Travel" active])
                   [ {| source := "Context"; target := "Travel" |} ] in
  triggerGraphUpdate [topic "Travel" potential "Context"] s = s.
Proof. vm_compute. done. Qed.

(** The parent is looked up after the new node has been pushed: a candidate
    that names itself as parent is linked to itself, not to the root. *)
Example self_parent_link :
  mindMapLinks (triggerGraphUpdate [topic "Travel" active "travel"]
                  (stateOf INITIAL_NODES []))
  = [ {| source := "Travel"; target := "Travel" |} ].
Proof. vm_compute. reflexivity. Qed.

Lemma status_monotonic_witness :
  ∃ n', mindMapNodes
          (session [ [topic "travel" active "Context"];
                     [topic "Travel" potential "Context"] ] travelSuggested)
        !! 1 = Some n'
        ∧ id n' = "Travel" ∧ label n' = "Travel" ∧ type n' = concept
        ∧ (potential = active → status n' = active)
        ∧ (status n' = potential ∨ (potential = potential ∧ status n' = active)).
Proof.
  exact (status_monotonic
           [ [topic "travel" active "Context"];
             [topic "Travel" potential "Context"] ]
           travelSuggested 1 (stored "Travel" potential) eq_refl).
Defined.

Lemma INITIAL_NODES_distinct : distinctLabels INITIAL_NODES.
Proof. apply distinctLabels_NoDup. vm_compute. apply NoDup_singleton. Qed.

Lemma case_insensitive_dedup_witness :
  distinctLabels (mindMapNodes (stateOf INITIAL_NODES []))
  ∧ distinctLabels
      (mindMapNodes
         (triggerGraphUpdate [ topic "Travel" active "Context";
                               topic "travel" potential "Context" ]
                             (stateOf INITIAL_NODES []))).
Proof.
  split; [exact INITIAL_NODES_distinct|].
  exact (case_insensitive_dedup
           [ topic "Travel" active "Context";
             topic "travel" potential "Context" ]
           (stateOf INITIAL_NODES []) INITIAL_NODES_distinct).
Defined.

Example travel_once :
  label <$> mindMapNodes
              (triggerGraphUpdate [ topic "Travel" active "Context";
                                    topic "travel" potential "Context" ]
                                  (stateOf INITIAL_NODES []))
  = ["Context"; "Travel"].
Proof. vm_compute. reflexivity. Qed.

(** ** A candidate that matches no stored node *)

(** C7. A candidate whose label matches no stored node adds exactly one
    node, at the end of the array; its id and label are the candidate's
    label, its type and status are the candidate's. The description of the
    candidate is not copied: the new node has none. *)
Theorem new_node_fields (ns : list MindMapNode) (ls : list MindMapLink)
    (c : GraphUpdateNode) :
  list_find (sameLabel (upd_label c)) ns = None →
  ∃ n', (mergeNode (ns, ls) c).1 = ns ++ [n']
        ∧ id n' = upd_label c ∧ label n' = upd_label c
        ∧ type n' = nodeType (upd_type c) ∧ status n' = upd_status c
        ∧ description n' = None
        ∧ description n' ≠ Some (upd_description c).
Proof.
  intros E. exists (newNode c). rewrite (mergeNode_new _ _ _ E). simpl.
  split_and!; done.
Qed.

Lemma new_node_fields_witness :
  ∃ n', (mergeNode (INITIAL_NODES, []) (topic "Travel" active "Context")).1
        = INITIAL_NODES ++ [n']
        ∧ id n' = "Travel" ∧ label n' = "Travel"
        ∧ type n' = concept ∧ status n' = active
        ∧ description n' = None
        ∧ description n' ≠ Some "Worth a conversation".
Proof.
  apply (new_node_fields INITIAL_NODES [] (topic "Travel" active "Context")).
  vm_compute. reflexivity.
Defined.

(** ** A candidate that matches a stored node *)

(** C8. A candidate whose label matches a stored node (the first such node,
    at position [i]) leaves the links as they are, adds no node, leaves every
    other position untouched, and changes at position [i] at most the
    status: it becomes active when the node was potential and the candidate
    is active, and is unchanged otherwise. *)
Theorem promotion_frame (ns : list MindMapNode) (ls : list MindMapLink)
    (c : GraphUpdateNode) (i : nat) (ex : MindMapNode) :
  list_find (sameLabel (upd_label c)) ns = Some (i, ex) →
  (mergeNode (ns, ls) c).2 = ls
  ∧ length (mergeNode (ns, ls) c).1 = length ns
  ∧ (∀ j, j ≠ i → (mergeNode (ns, ls) c).1 !! j = ns !! j)
  ∧ ∃ ex', (mergeNode (ns, ls) c).1 !! i = Some ex'
           ∧ id ex' = id ex ∧ label ex' = label ex ∧ group ex' = group ex
           ∧ type ex' = type ex ∧ description ex' = description ex
           ∧ status ex'
             = if decide (status ex = potential ∧ upd_status c = active)
               then active else status ex.
Proof.
  intros E. rewrite (mergeNode_found _ _ _ _ _ E). simpl.
  apply list_find_Some in E as (Hi & _).
  pose proof (lookup_lt_Some _ _ _ Hi) as Hlt.
  case_decide as Hd.
  - split_and!; [done|apply length_insert| |].
    + intros j Hj. by apply list_lookup_insert_ne.
    + exists (withStatus ex active).
      rewrite list_lookup_insert_eq by done. split_and!; done.
  - split_and!; [done..|]. exists ex. split_and!; done.
Qed.

Lemma promotion_frame_witness :
  (mergeNode (mindMapNodes travelSuggested, mindMapLinks travelSuggested)
             (topic "travel" active "Context")).2
  = mindMapLinks travelSuggested
  ∧ length (mergeNode (mindMapNodes travelSuggested,
                       mindMapLinks travelSuggested)
                      (topic "travel" active "Context")).1
    = length (mindMapNodes travelSuggested)
  ∧ (∀ j, j ≠ 1 →
          (mergeNode (mindMapNodes travelSuggested,
                      mindMapLinks travelSuggested)
                     (topic "travel" active "Context")).1 !! j
          = mindMapNodes travelSuggested !! j)
  ∧ ∃ ex', (mergeNode (mindMapNodes travelSuggested,
                       mindMapLinks travelSuggested)
                      (topic "travel" active "Context")).1 !! 1 = Some ex'
           ∧ id ex' = "Travel" ∧ label ex' = "Travel" ∧ group ex' = 2
           ∧ type ex' = concept ∧ description ex' = None
           ∧ status ex' = active.
Proof.
  apply (promotion_frame (mindMapNodes travelSuggested)
           (mindMapLinks travelSuggested) (topic "travel" active "Context")
           1 (stored "Travel" potential)).
  vm_compute. reflexivity.
Defined.

(** ** Links point at stored nodes *)

(** Both ends of every link are ids of stored nodes. *)
Definition linksResolved (ns : list MindMapNode) (ls : list MindMapLink)
    : Prop :=
  ∀ l, l ∈ ls → source l ∈ id <$> ns ∧ target l ∈ id <$> ns.

Lemma grows_ids ns ns' i : grows ns ns' → i ∈ id <$> ns → i ∈ id <$> ns'.
Proof.
  intros Hg (n & -> & Hn)%list_elem_of_fmap.
  apply list_elem_of_lookup in Hn as [k Hk].
  destruct (grows_lookup _ _ _ _ Hg Hk) as (n' & Hk' & Hp).
  apply list_elem_of_fmap. exists n'. split.
  - symmetry. by apply promotes_id.
  - by eapply list_elem_of_lookup_2.
Qed.

Lemma mergeNode_linksResolved ns ls c :
  linksResolved ns ls →
  linksResolved (mergeNode (ns, ls) c).1 (mergeNode (ns, ls) c).2.
Proof.
  intros Hr.
  assert (∀ l, l ∈ ls → source l ∈ id <$> (mergeNode (ns, ls) c).1
                        ∧ target l ∈ id <$> (mergeNode (ns, ls) c).1) as Hold.
  { intros l Hl. destruct (Hr l Hl).
    split; eapply grows_ids; eauto using mergeNode_grows. }
  destruct (list_find (sameLabel (upd_label c)) ns) as [[i ex]|] eqn:E.
  - rewrite (mergeNode_found _ _ _ _ _ E) in *. simpl in *. exact Hold.
  - rewrite (mergeNode_new _ _ _ E) in *. simpl in *.
    destruct (parentOf ns c) as [p|] eqn:Ep; [|exact Hold].
    case_decide; [exact Hold|].
    intros l [Hl| ->%list_elem_of_singleton]%elem_of_app; [by apply Hold|].
    simpl. split.
    + apply list_elem_of_fmap. exists p. split; [done|].
      by apply parentOf_elem.
    + rewrite fmap_app. apply elem_of_app. right. simpl. set_solver.
Qed.

Lemma mergeAll_linksResolved updates ns ls :
  linksResolved ns ls →
  linksResolved (mergeAll updates (ns, ls)).1 (mergeAll updates (ns, ls)).2.
Proof.
  revert ns ls. induction updates as [|c cs IH]; intros ns ls Hr; [done|].
  rewrite mergeAll_cons.
  pose proof (mergeNode_linksResolved ns ls c Hr) as H.
  destruct (mergeNode (ns, ls) c) as [ns1 ls1]. by apply IH.
Qed.

Lemma triggerGraphUpdate_linksResolved updates s :
  linksResolved (mindMapNodes s) (mindMapLinks s) →
  linksResolved (mindMapNodes (triggerGraphUpdate updates s))
                (mindMapLinks (triggerGraphUpdate updates s)).
Proof.
  destruct (triggerGraphUpdate_mergeAll updates s) as [-> ->].
  apply mergeAll_linksResolved.
Qed.

Lemma session_linksResolved answers s :
  linksResolved (mindMapNodes s) (mindMapLinks s) →
  linksResolved (mindMapNodes (session answers s))
                (mindMapLinks (session answers s)).
Proof.
  revert s. induction answers as [|u us IH]; intros s Hr; [done|].
  simpl. by apply IH, triggerGraphUpdate_linksResolved.
Qed.

(** C10. Starting from the initial state (the root node alone, no link),
    after any sequence of merges the source and the target of every link
    are ids of nodes of the node collection. *)
Theorem link_referential_integrity (now : Z)
    (answers : list (list GraphUpdateNode)) :
  ∀ l, l ∈ mindMapLinks (session answers (INITIAL_STATE now)) →
       (∃ n, n ∈ mindMapNodes (session answers (INITIAL_STATE now))
             ∧ id n = source l)
       ∧ (∃ n, n ∈ mindMapNodes (session answers (INITIAL_STATE now))
               ∧ id n = target l).
Proof.
  intros l Hl.
  assert (linksResolved (mindMapNodes (INITIAL_STATE now))
                        (mindMapLinks (INITIAL_STATE now))) as H0.
  { intros l0 Hl0. simpl in Hl0. by apply elem_of_nil in Hl0. }
  destruct (session_linksResolved answers _ H0 l Hl) as [Hs Ht].
  apply list_elem_of_fmap in Hs as (n1 & E1 & H1).
  apply list_elem_of_fmap in Ht as (n2 & E2 & H2).
  split; eauto.
Qed.

Lemma link_referential_integrity_witness :
  (∃ n, n ∈ mindMapNodes
              (session [ [topic "Travel" active "Context"] ] (INITIAL_STATE 0))
        ∧ id n = "Context")
  ∧ (∃ n, n ∈ mindMapNodes
                (session [ [topic "Travel" active "Context"] ]
                         (INITIAL_STATE 0))
          ∧ id n = "Travel").
Proof.
  apply (link_referential_integrity 0 [ [topic "Travel" active "Context"] ]
           {| source := "Context"; target := "Travel" |}).
  vm_compute. apply list_elem_of_here.
Defined.

(** * Properties of the depth computation *)

(** ** The loop rule *)


(** ** Walks from the root *)



(** ** The invariant of the traversal *)














(** ** The adjacency lists and the links *)

(** [n] links, each followed from its source to its target, lead from [a]
    to [b]. *)
Inductive linkPath (links : list MindMapLink) : nat → string → string → Prop :=
| path_here a : linkPath links 0 a a
| path_link n a l :
    linkPath links n a (source l) → l ∈ links →
    linkPath links (S n) a (target l).

(** [d] is the breadth-first distance of [v] from the root. *)
Definition distance (links : list MindMapLink) (v : string) (d : nat) : Prop :=
  linkPath links d "Context" v ∧ ∀ n, linkPath links n "Context" v → d ≤ n.





(** ** What [computeDepths] returns *)







(** ** The root *)



Example computeDepths_chain :
  (depthOf (computeDepths INITIAL_NODES
              [ {| source := "Context"; target := "A" |};
                {| source := "A"; target := "B" |};
                {| source := "X"; target := "Y" |} ]) <$>
     ["Context"; "A"; "B"; "Y"]) = [0; 1; 2; 0]
  ∧ res_maxDepth (computeDepths INITIAL_NODES
                    [ {| source := "Context"; target := "A" |};
                      {| source := "A"; target := "B" |};
                      {| source := "X"; target := "Y" |} ]) = 2.
Proof. vm_compute. done. Qed.

(** * Properties of the node preparation *)


Definition samplePosition : Position :=
  {| x := 512%Q; y := 60%Q; vx := 0%Q; vy := (1 # 4)%Q |}.


Example layout_sample :
  position <$> simulationNodes 1024 {[ "Context" := samplePosition ]}
                 (INITIAL_NODES ++ [stored "Travel" active])
                 [ {| source := "Context"; target := "Travel" |} ]
  = [ samplePosition;
      {| x := (1024 # 1) / 2; y := 180%Q; vx := 0%Q; vy := 0%Q |} ].
Proof. vm_compute. done. Qed.

(** The earlier variant starts a node without cached position at the fixed
    height 50, whatever its depth. *)
Lemma earlier_layout_start (clientWidth : nat)
    (nodePositions : gmap string Position) (nodes : list MindMapNode)
    (i : nat) (n : MindMapNode) :
  nodes !! i = Some n → nodePositions !! id n = None →
  position <$> EarlierLayout.simulationNodes clientWidth nodePositions nodes !! i
  = Some {| x := (num (containerWidth clientWidth) / 2)%Q; y := 50%Q;
            vx := 0%Q; vy := 0%Q |}.
Proof.
  intros Hi Hc. unfold EarlierLayout.simulationNodes.
  rewrite list_lookup_fmap, Hi. simpl.
  unfold EarlierLayout.simulationNode. by rewrite Hc.
Qed.

(** * Properties of the path to the root *)

(** ** The loop *)

Lemma pathLoop_eq links st :
  pathLoop links st
  = if pathContinues st then pathLoop links (pathIteration links st) else st.
Proof.
  funelim (pathLoop links st).
  - by rewrite Hc.
  - by rewrite e.
Qed.

(** An invariant of the loop body holds when the loop ends, and the loop
    ends because its condition is false. *)
Lemma pathLoop_rule links (P : PathState → Prop) :
  (∀ st, P st → pathContinues st = true → P (pathIteration links st)) →
  ∀ st, P st →
        P (pathLoop links st) ∧ pathContinues (pathLoop links st) = false.
Proof.
  intros Hbody st. funelim (pathLoop links st); intros HP.
  - eauto.
  - done.
Qed.

(** The link that [currentLinks.find(...)] returns for [v]. *)
Definition parentLink (links : list MindMapLink) (v : string)
    : option MindMapLink :=
  snd <$> list_find (λ l, target l = v) links.

Lemma parentLink_Some links v l :
  parentLink links v = Some l → l ∈ links ∧ target l = v.
Proof.
  unfold parentLink. intros H.
  destruct (list_find _ links) as [[j l']|] eqn:E; [|done].
  simpl in H. inversion H; subst.
  apply list_find_Some in E as (Hj & Ht & _).
  split; [by eapply list_elem_of_lookup_2|done].
Qed.

Lemma parentLink_exists links v l :
  l ∈ links → target l = v → is_Some (parentLink links v).
Proof.
  intros Hl Ht. unfold parentLink.
  destruct (list_find_elem_of (λ l, target l = v) links l Hl Ht) as [[j l'] ->].
  by eexists.
Qed.

(** ** Facts that hold for every link list *)

(** What the walk keeps true: the queried id and the current id are in the
    path, the path holds only the queried id and sources of links, and the
    count of iterations follows the size of the path. *)
Record PathInv (links : list MindMapLink) (targetId : string)
    (st : PathState) : Prop := {
  pinv_target : targetId ∈ path st;
  pinv_current : currentId st ∈ path st;
  pinv_sources : path st ⊆ {[targetId]} ∪ list_to_set (source <$> links);
  pinv_count : if foundParent st then iterations st + 1 = size (path st)
               else iterations st ≤ size (path st);
  pinv_cap : iterations st ≤ 100
}.

Lemma pathStart_inv links targetId : PathInv links targetId (pathStart targetId).
Proof.
  split; [simpl; set_solver..| |simpl; lia].
  unfold pathStart. cbn [foundParent iterations path].
  by rewrite size_singleton.
Qed.

Lemma pathIteration_inv links targetId st :
  PathInv links targetId st → pathContinues st = true →
  PathInv links targetId (pathIteration links st).
Proof.
  intros I Hc. unfold pathContinues in Hc.
  apply andb_true_iff in Hc as [Hf Hc]. apply bool_decide_eq_true in Hc.
  pose proof (pinv_count _ _ _ I) as Hn. rewrite Hf in Hn.
  unfold pathIteration. fold (parentLink links (currentId st)).
  pose proof (pinv_target _ _ _ I) as Ht.
  pose proof (pinv_current _ _ _ I) as Hcur.
  pose proof (pinv_sources _ _ _ I) as Hs.
  destruct (parentLink links (currentId st)) as [l|] eqn:E;
    cbn [fmap option_fmap option_map]; [case_decide as Hin|].
  - split; cbn [path currentId foundParent iterations]; [done..|lia|lia].
  - apply parentLink_Some in E as [Hl _].
    assert (source l ∈ (list_to_set (source <$> links) : gset string)).
    { apply elem_of_list_to_set. by apply list_elem_of_fmap_2. }
    split; cbn [path currentId foundParent iterations];
      [set_solver..| |lia].
    rewrite size_union by set_solver. rewrite size_singleton. lia.
  - split; cbn [path currentId foundParent iterations]; [done..|lia|lia].
Qed.

Lemma pathLoop_inv links targetId :
  PathInv links targetId (pathLoop links (pathStart targetId)).
Proof.
  apply (pathLoop_rule links (PathInv links targetId)).
  - apply pathIteration_inv.
  - apply pathStart_inv.
Qed.

Lemma size_list_to_set_le (l : list string) :
  size (list_to_set l : gset string) ≤ length l.
Proof.
  induction l as [|a l IH].
  - by rewrite list_to_set_nil, size_empty.
  - rewrite list_to_set_cons. cbn [length].
    rewrite size_union_alt, size_singleton.
    assert (size (list_to_set l ∖ {[a]} : gset string)
            ≤ size (list_to_set l : gset string))
      by (apply subseteq_size; set_solver).
    lia.
Qed.

Lemma pathLoop_grows links st : path st ⊆ path (pathLoop links st).
Proof.
  apply (pathLoop_rule links (λ st', path st ⊆ path st')); [|done].
  intros st' Hsub _. etrans; [exact Hsub|]. unfold pathIteration.
  destruct (snd <$> list_find _ links); [case_decide|]; simpl; set_solver.
Qed.

(** ** Reaching the root *)

(** No id leads back to itself along one or more links. *)
Definition acyclic (links : list MindMapLink) : Prop :=
  ∀ n a, ¬ linkPath links (S n) a a.

(** All the links into one id come from the same source. *)
Definition singleParent (links : list MindMapLink) : Prop :=
  ∀ l1 l2, l1 ∈ links → l2 ∈ links → target l1 = target l2 →
           source l1 = source l2.

Lemma linkPath_cons links l j w :
  l ∈ links → linkPath links j (target l) w →
  linkPath links (S j) (source l) w.
Proof.
  intros Hl H. remember (target l) as a eqn:Ha.
  induction H as [a|n a l' _ IH Hl'].
  - subst a. apply path_link; [constructor|done].
  - apply path_link; [by apply IH|done].
Qed.

Lemma linkPath_zero links a b : linkPath links 0 a b → a = b.
Proof. by inversion 1. Qed.

Lemma linkPath_last links n a b :
  linkPath links (S n) a b →
  ∃ l, l ∈ links ∧ target l = b ∧ linkPath links n a (source l).
Proof. inversion 1; subst. eauto. Qed.

(** A rank that grows along every link rules out cycles. *)
Lemma ranked_acyclic (rank : string → nat) links :
  (∀ l, l ∈ links → rank (source l) < rank (target l)) → acyclic links.
Proof.
  intros Hr.
  assert (∀ n a b, linkPath links n a b →
                   rank a ≤ rank b ∧ (0 < n → rank a < rank b)) as H.
  { induction 1 as [a|n a l _ [IH1 IH2] Hl]; [lia|].
    specialize (Hr l Hl). lia. }
  intros n a Hp. destruct (H _ _ _ Hp) as [_ Hlt]. lia.
Qed.

Lemma pathLoop_reaches_root links m :
  acyclic links → singleParent links →
  ∀ st, foundParent st = true →
        linkPath links m "Context" (currentId st) →
        iterations st + m ≤ 100 →
        currentId st ∈ path st →
        (∀ w, w ∈ path st → ∃ j, linkPath links j (currentId st) w) →
        "Context" ∈ path (pathLoop links st).
Proof.
  intros Hacyc Hsingle. induction m as [|m IH]; intros st Hf Hp Hit Hcur Hpath.
  - apply linkPath_zero in Hp. apply pathLoop_grows. by rewrite Hp.
  - apply linkPath_last in Hp as (l & Hl & Ht & Hp').
    rewrite pathLoop_eq.
    assert (pathContinues st = true) as ->.
    { unfold pathContinues. rewrite Hf. simpl. apply bool_decide_eq_true. lia. }
    destruct (parentLink_exists links (currentId st) l Hl Ht) as [l' E].
    pose proof (parentLink_Some _ _ _ E) as [Hl' Ht'].
    assert (source l' = source l) as Hsrc.
    { apply Hsingle; [done..|congruence]. }
    assert (source l' ∉ path st) as Hfresh.
    { intros Hin. destruct (Hpath _ Hin) as [j Hj].
      apply (Hacyc j (currentId st)). rewrite <-Ht' at 2.
      by apply path_link. }
    unfold pathIteration. fold (parentLink links (currentId st)).
    rewrite E. cbn [fmap option_fmap option_map].
    rewrite decide_False by done.
    apply IH; cbn [path currentId foundParent iterations].
    + done.
    + by rewrite Hsrc.
    + lia.
    + set_solver.
    + intros w [->%elem_of_singleton|Hw]%elem_of_union.
      * exists 0. constructor.
      * destruct (Hpath _ Hw) as [j Hj]. exists (S j).
        apply linkPath_cons; [done|]. by rewrite Ht'.
Qed.

(** C6 (as amended). For every link list and every queried id, the walk
    stops after at most 100 iterations, and after at most as many
    iterations as there are nodes when the queried id and the sources of the
    links are ids of nodes; the returned set contains the queried id. When
    the link set is acyclic, all links into one id come from one source, and
    at most 100 links lead from the root "Context" to the queried id, the
    returned set also contains the root id. *)
Theorem path_to_root (targetId : string) (links : list MindMapLink) :
  targetId ∈ getPathToRoot targetId links
  ∧ getPathToRoot_iterations targetId links ≤ 100
  ∧ (∀ nodes : list MindMapNode,
       targetId ∈ id <$> nodes →
       (∀ l, l ∈ links → source l ∈ id <$> nodes) →
       getPathToRoot_iterations targetId links ≤ length nodes)
  ∧ (∀ k, acyclic links → singleParent links →
          linkPath links k "Context" targetId → k ≤ 100 →
          "Context" ∈ getPathToRoot targetId links).
Proof.
  unfold getPathToRoot, getPathToRoot_iterations.
  pose proof (pathLoop_inv links targetId) as I.
  split_and!.
  - apply (pinv_target _ _ _ I).
  - apply (pinv_cap _ _ _ I).
  - intros nodes Ht Hs.
    assert (iterations (pathLoop links (pathStart targetId))
            ≤ size (path (pathLoop links (pathStart targetId)))) as Hle.
    { pose proof (pinv_count _ _ _ I) as Hc.
      destruct (foundParent _); lia. }
    etrans; [exact Hle|]. rewrite <-(length_fmap id nodes).
    etrans; [|apply (size_list_to_set_le (id <$> nodes))].
    apply subseteq_size.
    etrans; [apply (pinv_sources _ _ _ I)|].
    intros w [->%elem_of_singleton|Hw%elem_of_list_to_set]%elem_of_union;
      apply elem_of_list_to_set; [done|].
    apply list_elem_of_fmap in Hw as (l & -> & Hl). by apply Hs.
  - intros k Hacyc Hsingle Hp Hk.
    apply (pathLoop_reaches_root links k); simpl; try done.
    + set_solver.
    + intros w ->%elem_of_singleton. exists 0. constructor.
Qed.

(** ** A deep chain, built by the graph store *)

(** The id at depth [k] of the chain: the root for [k = 0]. *)
Fixpoint chainId (k : nat) : string :=
  match k with
  | 0 => "Context"
  | S k => String "x" (chainId k)
  end.

(** Candidates that hang each id below the one before it. *)
Definition chainUpdates (n : nat) : list GraphUpdateNode :=
  (λ k, topic (chainId (S k)) active (chainId k)) <$> seq 0 n.

Definition chainLinks (n : nat) : list MindMapLink :=
  (λ k, {| source := chainId k; target := chainId (S k) |}) <$> seq 0 n.

Lemma chainLinks_elem n k :
  k < n → {| source := chainId k; target := chainId (S k) |} ∈ chainLinks n.
Proof.
  intros Hk. unfold chainLinks.
  apply (list_elem_of_fmap_2
           (λ k, {| source := chainId k; target := chainId (S k) |})).
  apply elem_of_seq. lia.
Qed.

Lemma chainLinks_path n k :
  k ≤ n → linkPath (chainLinks n) k "Context" (chainId k).
Proof.
  induction k as [|k IH]; intros Hk; [constructor|].
  apply (path_link _ k "Context" {| source := chainId k;
                                    target := chainId (S k) |}).
  - apply IH. lia.
  - by apply chainLinks_elem.
Qed.

Lemma chainId_length k : String.length (chainId k) = k + 7.
Proof. induction k as [|k IH]; simpl; [done|]. by rewrite IH. Qed.

Lemma chainLinks_acyclic n : acyclic (chainLinks n).
Proof.
  apply (ranked_acyclic String.length).
  intros l (k & -> & _)%list_elem_of_fmap. simpl. rewrite chainId_length. lia.
Qed.

Lemma chainId_inj j k : chainId j = chainId k → j = k.
Proof.
  intros H. apply (f_equal String.length) in H.
  rewrite !chainId_length in H. lia.
Qed.

Lemma chainLinks_singleParent n : singleParent (chainLinks n).
Proof.
  intros l1 l2 (j & -> & _)%list_elem_of_fmap (k & -> & _)%list_elem_of_fmap.
  simpl. intros [= H]. apply chainId_inj in H. by subst.
Qed.

(** The links after the graph store has merged a chain of 101 candidates
    into the initial state. *)
Definition deepChain : list MindMapLink :=
  mindMapLinks (triggerGraphUpdate (chainUpdates 101) (INITIAL_STATE 0)).

Lemma deepChain_links : deepChain = chainLinks 101.
Proof. vm_compute. reflexivity. Qed.

(** Whether the walk from [targetId] collects the root id. *)
Definition reachesRoot (targetId : string) (links : list MindMapLink) : bool :=
  bool_decide ("Context" ∈ getPathToRoot targetId links).

Lemma reachesRoot_false targetId links :
  reachesRoot targetId links = false →
  "Context" ∉ getPathToRoot targetId links.
Proof. apply bool_decide_eq_false. Qed.

Lemma deepChain_iterations :
  getPathToRoot_iterations (chainId 101) (chainLinks 101) = 100.
Proof. vm_compute. reflexivity. Qed.

Lemma deepChain_walk : reachesRoot (chainId 101) (chainLinks 101) = false.
Proof. vm_compute. reflexivity. Qed.

Definition twoParents : list MindMapLink :=
  [ {| source := "Food"; target := "Restaurants" |};
    {| source := "Context"; target := "Restaurants" |} ].

Lemma twoParents_walk : reachesRoot "Restaurants" twoParents = false.
Proof. vm_compute. reflexivity. Qed.

Lemma unlinked_walk : reachesRoot "Travel" [] = false.
Proof. vm_compute. reflexivity. Qed.

Lemma acyclic_nil : acyclic [].
Proof.
  apply (ranked_acyclic String.length). intros l Hl.
  by apply elem_of_nil in Hl.
Qed.

Lemma twoParents_acyclic : acyclic twoParents.
Proof.
  apply (ranked_acyclic String.length).
  intros l [->|[->|Hl%elem_of_nil]%elem_of_cons]%elem_of_cons;
    [vm_compute; lia..|done].
Qed.

Lemma twoParents_path : linkPath twoParents 1 "Context" "Restaurants".
Proof.
  apply (path_link _ 0 "Context" {| source := "Context";
                                    target := "Restaurants" |});
    [constructor|].
  apply list_elem_of_further, list_elem_of_here.
Qed.

(** C6 (as stated) fails. An acyclic link set need not connect the queried
    id to the root; it may connect it to the root along a link that the walk
    does not follow, when a second link enters the same id; and on the chain
    of 101 links that the graph store builds from the initial state the walk
    stops at the cap of 100 iterations, one short of the root. *)
Lemma path_to_root_counterexample :
  (acyclic [] ∧ "Context" ∉ getPathToRoot "Travel" [])
  ∧ (acyclic twoParents
     ∧ linkPath twoParents 1 "Context" "Restaurants"
     ∧ "Context" ∉ getPathToRoot "Restaurants" twoParents)
  ∧ (acyclic deepChain
     ∧ singleParent deepChain
     ∧ linkPath deepChain 101 "Context" (chainId 101)
     ∧ getPathToRoot_iterations (chainId 101) deepChain = 100
     ∧ "Context" ∉ getPathToRoot (chainId 101) deepChain).
Proof.
  rewrite deepChain_links.
  exact (conj (conj acyclic_nil (reachesRoot_false _ _ unlinked_walk))
           (conj (conj twoParents_acyclic
                    (conj twoParents_path
                       (reachesRoot_false _ _ twoParents_walk)))
              (conj (chainLinks_acyclic 101)
                 (conj (chainLinks_singleParent 101)
                    (conj (chainLinks_path 101 101 (le_n 101))
                       (conj deepChain_iterations
                          (reachesRoot_false _ _ deepChain_walk))))))).
Qed.

Lemma path_to_root_witness :
  chainId 100 ∈ getPathToRoot (chainId 100) (chainLinks 100)
  ∧ getPathToRoot_iterations (chainId 100) (chainLinks 100) ≤ 100
  ∧ "Context" ∈ getPathToRoot (chainId 100) (chainLinks 100).
Proof.
  pose proof (path_to_root (chainId 100) (chainLinks 100)) as H.
  split; [exact (proj1 H)|]. split; [exact (proj1 (proj2 H))|].
  exact (proj2 (proj2 (proj2 H)) 100 (chainLinks_acyclic 100)
           (chainLinks_singleParent 100) (chainLinks_path 100 100 (le_n 100))
           (le_n 100)).
Defined.

From Stdlib Require Import Qminmax Lqa.

(** * Further properties of the graph store *)

(** ** Lifting a property of one step to merges and sessions *)

Lemma mergeAll_invariant (Q : GraphUpdateNode → Prop)
    (P : list MindMapNode → list MindMapLink → Prop) :
  (∀ ns ls c, Q c → P ns ls →
              P (mergeNode (ns, ls) c).1 (mergeNode (ns, ls) c).2) →
  ∀ updates ns ls,
    Forall Q updates → P ns ls →
    P (mergeAll updates (ns, ls)).1 (mergeAll updates (ns, ls)).2.
Proof.
  intros Hstep updates. induction updates as [|c cs IH]; intros ns ls HQ HP.
  - done.
  - apply Forall_cons in HQ as [Hc Hcs]. rewrite mergeAll_cons.
    pose proof (Hstep ns ls c Hc HP) as H1.
    destruct (mergeNode (ns, ls) c) as [ns1 ls1]. by apply IH.
Qed.

Lemma session_invariant (Q : GraphUpdateNode → Prop)
    (P : list MindMapNode → list MindMapLink → Prop) :
  (∀ ns ls c, Q c → P ns ls →
              P (mergeNode (ns, ls) c).1 (mergeNode (ns, ls) c).2) →
  ∀ answers s,
    Forall (Forall Q) answers → P (mindMapNodes s) (mindMapLinks s) →
    P (mindMapNodes (session answers s)) (mindMapLinks (session answers s)).
Proof.
  intros Hstep answers. induction answers as [|u us IH]; intros s HQ HP.
  - done.
  - apply Forall_cons in HQ as [Hu Hus]. simpl. apply IH; [done|].
    destruct (triggerGraphUpdate_mergeAll u s) as [-> ->].
    by apply (mergeAll_invariant Q P).
Qed.

Lemma Forall_Forall_True (answers : list (list GraphUpdateNode)) :
  Forall (Forall (λ _, True)) answers.
Proof. apply Forall_forall. intros u _. by apply Forall_forall. Qed.

(** ** Links are only ever appended *)

Lemma mergeNode_links_prefix ns ls c : ls `prefix_of` (mergeNode (ns, ls) c).2.
Proof.
  destruct (list_find (sameLabel (upd_label c)) ns) as [[i ex]|] eqn:E.
  - rewrite (mergeNode_found _ _ _ _ _ E). done.
  - rewrite (mergeNode_new _ _ _ E). simpl.
    destruct (parentOf ns c) as [p|]; [|done].
    case_decide; [done|]. by apply prefix_app_r.
Qed.

(** X1. No merge removes, changes or reorders a link: the links of a state
    are a prefix of the links after any sequence of merges. *)
Theorem links_append_only (answers : list (list GraphUpdateNode))
    (s : DojoState) :
  mindMapLinks s `prefix_of` mindMapLinks (session answers s).
Proof.
  apply (session_invariant (λ _, True)
           (λ _ ls, mindMapLinks s `prefix_of` ls)).
  - intros ns ls c _ H. etrans; [exact H|]. apply mergeNode_links_prefix.
  - apply Forall_Forall_True.
  - done.
Qed.

(** ** Links are not doubled, whatever their direction *)

(** No two positions of the link array join the same pair of ids. *)
Definition noParallel (ls : list MindMapLink) : Prop :=
  ∀ i j a b, ls !! i = Some a → ls !! j = Some b →
             linksPair (source a) (target a) b → i = j.

Lemma linksPair_sym a b l : linksPair a b l → linksPair b a l.
Proof. unfold linksPair. tauto. Qed.

Lemma mergeNode_noParallel ns ls c :
  noParallel ls → noParallel (mergeNode (ns, ls) c).2.
Proof.
  intros Hn.
  destruct (list_find (sameLabel (upd_label c)) ns) as [[i ex]|] eqn:E.
  - by rewrite (mergeNode_found _ _ _ _ _ E).
  - rewrite (mergeNode_new _ _ _ E). simpl.
    destruct (parentOf ns c) as [p|]; [|done].
    case_decide as Hex; [done|].
    rewrite Exists_exists in Hex.
    intros i j a b Ha Hb Hab.
    apply lookup_app_Some in Ha as [Ha|[Hia Ha]];
      apply lookup_app_Some in Hb as [Hb|[Hib Hb]].
    + by eapply Hn.
    + apply list_lookup_singleton_Some in Hb as [_ <-].
      exfalso. apply Hex. exists a. split; [by eapply list_elem_of_lookup_2|].
      unfold linksPair in *. simpl in *. intuition congruence.
    + apply list_lookup_singleton_Some in Ha as [_ <-].
      exfalso. apply Hex. exists b. split; [by eapply list_elem_of_lookup_2|].
      exact Hab.
    + apply list_lookup_singleton_Some in Ha as [Hi _].
      apply list_lookup_singleton_Some in Hb as [Hj _]. lia.
Qed.

(** X2. Links are deduplicated irrespective of direction: if no two links of
    the state join the same pair of ids, in either direction, the same holds
    after a merge of any candidate list. *)
Theorem link_dedup (updates : list GraphUpdateNode) (s : DojoState) :
  noParallel (mindMapLinks s) →
  noParallel (mindMapLinks (triggerGraphUpdate updates s)).
Proof.
  intros H. rewrite (proj2 (triggerGraphUpdate_mergeAll updates s)).
  apply (mergeAll_invariant (λ _, True) (λ _ ls, noParallel ls));
    [|by apply Forall_forall|done].
  intros ns ls c _. apply mergeNode_noParallel.
Qed.

Lemma noParallel_nil : noParallel [].
Proof. intros i j a b Ha. by rewrite lookup_nil in Ha. Qed.

Lemma link_dedup_witness :
  noParallel (mindMapLinks (stateOf INITIAL_NODES []))
  ∧ noParallel
      (mindMapLinks
         (triggerGraphUpdate [ topic "Travel" active "Context";
                               topic "Context" active "Travel" ]
                             (stateOf INITIAL_NODES []))).
Proof.
  split; [exact noParallel_nil|].
  exact (link_dedup [ topic "Travel" active "Context";
                      topic "Context" active "Travel" ]
           (stateOf INITIAL_NODES []) noParallel_nil).
Defined.

(** ** What holds in every state that merges build from the initial one *)

(** The node the graph starts from. *)
Definition rootNode : MindMapNode :=
  {| id := "Context"; label := "Context"; group := 1; type := root;
     status := active; description := None |}.

Record StoreInv (ns : list MindMapNode) (ls : list MindMapLink) : Prop := {
  si_root : ns !! 0 = Some rootNode;
  si_ids : ∀ n, n ∈ ns → id n = label n;
  si_distinct : distinctLabels ns;
  si_types : ∀ i n, ns !! i = Some n → type n = root → i = 0;
  si_rank : ∀ l, l ∈ ls →
                 ∃ i j n m, ns !! i = Some n ∧ id n = source l
                            ∧ ns !! j = Some m ∧ id m = target l
                            ∧ i ≤ j ∧ 0 < j;
  si_targets : NoDup (target <$> ls);
  si_count : length ls < length ns
}.

Lemma promotes_type a b : promotes a b → type b = type a.
Proof. by intros [->|[_ ->]]. Qed.

Lemma StoreInv_initial : StoreInv INITIAL_NODES [].
Proof.
  split; simpl.
  - done.
  - intros n ->%list_elem_of_singleton. done.
  - apply INITIAL_NODES_distinct.
  - intros [|i] n Hn _; [done|]. by destruct i.
  - intros l Hl. by apply elem_of_nil in Hl.
  - constructor.
  - lia.
Qed.

(** A label that no stored node carries is the id of no stored node and an
    end of no link. *)
Lemma StoreInv_fresh ns ls s :
  StoreInv ns ls → list_find (sameLabel s) ns = None →
  (s ∉ id <$> ns) ∧ ∀ l, l ∈ ls → source l ≠ s ∧ target l ≠ s.
Proof.
  intros I E. apply list_find_None in E. rewrite Forall_forall in E.
  assert (∀ n, n ∈ ns → id n ≠ s) as Hid.
  { intros n Hn Heq. apply (E n Hn). unfold sameLabel.
    by rewrite <-(si_ids _ _ I n Hn), Heq. }
  split.
  - intros (n & -> & Hn)%list_elem_of_fmap. by apply (Hid n).
  - intros l Hl.
    destruct (si_rank _ _ I l Hl) as (i & j & n & m & Hi & Hs & Hj & Ht & _).
    split.
    + rewrite <-Hs. apply Hid. by eapply list_elem_of_lookup_2.
    + rewrite <-Ht. apply Hid. by eapply list_elem_of_lookup_2.
Qed.

Lemma mergeNode_StoreInv ns ls c :
  StoreInv ns ls → StoreInv (mergeNode (ns, ls) c).1 (mergeNode (ns, ls) c).2.
Proof.
  intros I.
  pose proof (mergeNode_grows ns ls c) as Hg.
  pose proof (mergeNode_distinctLabels ns ls c (si_distinct _ _ I)) as Hd.
  destruct (list_find (sameLabel (upd_label c)) ns) as [[i ex]|] eqn:E.
  - rewrite (mergeNode_found _ _ _ _ _ E) in *. simpl in *.
    set (ns' := if decide (status ex = potential ∧ upd_status c = active)
                then <[i:=withStatus ex active]> ns else ns) in *.
    assert (length ns' = length ns) as Hlen.
    { unfold ns'. case_decide; [apply length_insert|done]. }
    assert (∀ j n', ns' !! j = Some n' →
                    ∃ n, ns !! j = Some n ∧ promotes n n') as Hback.
    { intros j n' Hj. eapply grows_lookup_inv; [done..|].
      rewrite <-Hlen. by eapply lookup_lt_Some. }
    split.
    + destruct (grows_lookup _ _ _ _ Hg (si_root _ _ I)) as (b & Hb & Hp).
      rewrite Hb. f_equal. by destruct Hp as [->|[? _]].
    + intros n' (j & Hj)%list_elem_of_lookup.
      destruct (Hback _ _ Hj) as (n & Hn & Hp).
      rewrite (promotes_id _ _ Hp), (promotes_label _ _ Hp).
      apply (si_ids _ _ I). by eapply list_elem_of_lookup_2.
    + done.
    + intros j n' Hj Ht. destruct (Hback _ _ Hj) as (n & Hn & Hp).
      apply (si_types _ _ I j n Hn). by rewrite <-(promotes_type _ _ Hp).
    + intros l Hl.
      destruct (si_rank _ _ I l Hl) as (a & b & n & m & Ha & Hs & Hb & Ht & Hle).
      destruct (grows_lookup _ _ _ _ Hg Ha) as (n' & Ha' & Hpn).
      destruct (grows_lookup _ _ _ _ Hg Hb) as (m' & Hb' & Hpm).
      exists a, b, n', m'. split_and!; try done.
      * by rewrite (promotes_id _ _ Hpn).
      * by rewrite (promotes_id _ _ Hpm).
      * tauto.
      * tauto.
    + apply (si_targets _ _ I).
    + rewrite Hlen. apply (si_count _ _ I).
  - destruct (StoreInv_fresh _ _ _ I E) as [Hfid Hfl].
    rewrite (mergeNode_new _ _ _ E) in *. simpl in *.
    assert (0 < length ns) as Hpos.
    { pose proof (lookup_lt_Some _ _ _ (si_root _ _ I)). lia. }
    assert (∀ l, l ∈ ls →
                 ∃ i j n m, (ns ++ [newNode c]) !! i = Some n ∧ id n = source l
                            ∧ (ns ++ [newNode c]) !! j = Some m
                            ∧ id m = target l ∧ i ≤ j ∧ 0 < j) as Hold.
    { intros l Hl.
      destruct (si_rank _ _ I l Hl) as (a & b & n & m & Ha & Hs & Hb & Ht & Hle).
      exists a, b, n, m. split_and!; try done; try tauto;
        by apply lookup_app_l_Some. }
    assert (StoreInv (ns ++ [newNode c]) ls) as I0.
    { split.
      - apply lookup_app_l_Some, (si_root _ _ I).
      - intros n [Hn| ->%list_elem_of_singleton]%elem_of_app;
          [by apply (si_ids _ _ I)|done].
      - done.
      - intros j n [Hj|[Hj Hn]]%lookup_app_Some Ht;
          [by eapply (si_types _ _ I)|].
        apply list_lookup_singleton_Some in Hn as [_ <-].
        simpl in Ht. by destruct (upd_type c).
      - done.
      - apply (si_targets _ _ I).
      - rewrite length_app. simpl. pose proof (si_count _ _ I). lia. }
    destruct (parentOf ns c) as [p|] eqn:Ep; [|done].
    case_decide as Hex; [done|].
    split; try apply I0.
    + intros l [Hl| ->%list_elem_of_singleton]%elem_of_app; [by apply Hold|].
      simpl. apply parentOf_elem in Ep.
      apply list_elem_of_lookup in Ep as [a Ha].
      exists a, (length ns), p, (newNode c). split_and!; try done.
      * rewrite lookup_app_r by done. by rewrite Nat.sub_diag.
      * apply lookup_lt_Some in Ha. rewrite length_app in Ha. simpl in Ha. lia.
    + rewrite fmap_app. apply NoDup_app. split_and!.
      * apply (si_targets _ _ I).
      * intros t (l & -> & Hl)%list_elem_of_fmap Heq%list_elem_of_singleton.
        simpl in Heq. by destruct (Hfl l Hl).
      * apply NoDup_singleton.
    + rewrite !length_app. simpl. pose proof (si_count _ _ I). lia.
Qed.

Lemma session_StoreInv now answers :
  StoreInv (mindMapNodes (session answers (INITIAL_STATE now)))
           (mindMapLinks (session answers (INITIAL_STATE now))).
Proof.
  apply (session_invariant (λ _, True) StoreInv).
  - intros ns ls c _. apply mergeNode_StoreInv.
  - apply Forall_Forall_True.
  - apply StoreInv_initial.
Qed.

Lemma StoreInv_NoDup_ids ns ls : StoreInv ns ls → NoDup (id <$> ns).
Proof.
  intros I. apply NoDup_alt. intros i j s Hi Hj.
  rewrite list_lookup_fmap in Hi, Hj.
  destruct (ns !! i) as [a|] eqn:Ea; [|done].
  destruct (ns !! j) as [b|] eqn:Eb; [|done].
  simpl in *. apply (si_distinct _ _ I i j a b Ea Eb).
  rewrite <-(si_ids _ _ I a), <-(si_ids _ _ I b);
    [congruence|by eapply list_elem_of_lookup_2..].
Qed.

(** X3. Node ids are unique and derived from the label: after any sequence
    of merges from the initial state, every node's id is its label and no
    two nodes share an id. *)
Theorem unique_ids (now : Z) (answers : list (list GraphUpdateNode)) :
  NoDup (id <$> mindMapNodes (session answers (INITIAL_STATE now)))
  ∧ Forall (λ n, id n = label n)
           (mindMapNodes (session answers (INITIAL_STATE now))).
Proof.
  pose proof (session_StoreInv now answers) as I. split.
  - by eapply StoreInv_NoDup_ids.
  - apply Forall_forall. apply (si_ids _ _ I).
Qed.

(** X4. The root is never touched and never doubled: after any sequence of
    merges from the initial state, the first node is still the initial root
    (id and label "Context", type root, active), and it is the only node of
    type root and the only node with id "Context". *)
Theorem one_root (now : Z) (answers : list (list GraphUpdateNode)) :
  mindMapNodes (session answers (INITIAL_STATE now)) !! 0 = Some rootNode
  ∧ (∀ i n, mindMapNodes (session answers (INITIAL_STATE now)) !! i = Some n →
            type n = root ∨ id n = "Context" → i = 0).
Proof.
  pose proof (session_StoreInv now answers) as I.
  split; [apply (si_root _ _ I)|].
  intros i n Hn [Ht|Hid]; [by eapply (si_types _ _ I)|].
  pose proof (StoreInv_NoDup_ids _ _ I) as Hnd.
  apply (NoDup_lookup _ i 0 "Context" Hnd).
  - by rewrite list_lookup_fmap, Hn, <-Hid.
  - by rewrite list_lookup_fmap, (si_root _ _ I).
Qed.

Lemma NoDup_targets_singleParent ls :
  NoDup (target <$> ls) → singleParent ls.
Proof.
  intros Hnd l1 l2 (i & Hi)%list_elem_of_lookup (j & Hj)%list_elem_of_lookup Ht.
  assert (i = j) as ->.
  { apply (NoDup_lookup _ i j (target l1) Hnd).
    - by rewrite list_lookup_fmap, Hi.
    - by rewrite list_lookup_fmap, Hj, Ht. }
  congruence.
Qed.

(** X5. After any sequence of merges from the initial state every id has at
    most one incoming link, no link enters the root, and there are fewer
    links than nodes. *)
Theorem one_parent_each (now : Z) (answers : list (list GraphUpdateNode)) :
  NoDup (target <$> mindMapLinks (session answers (INITIAL_STATE now)))
  ∧ singleParent (mindMapLinks (session answers (INITIAL_STATE now)))
  ∧ Forall (λ l, target l ≠ "Context")
           (mindMapLinks (session answers (INITIAL_STATE now)))
  ∧ length (mindMapLinks (session answers (INITIAL_STATE now)))
    < length (mindMapNodes (session answers (INITIAL_STATE now))).
Proof.
  pose proof (session_StoreInv now answers) as I.
  split_and!.
  - apply (si_targets _ _ I).
  - apply NoDup_targets_singleParent, (si_targets _ _ I).
  - apply Forall_forall. intros l Hl Ht.
    destruct (si_rank _ _ I l Hl) as (i & j & n & m & _ & _ & Hj & Hm & _ & Hpos).
    pose proof (StoreInv_NoDup_ids _ _ I) as Hnd.
    assert (j = 0); [|lia].
    apply (NoDup_lookup _ j 0 "Context" Hnd).
    + by rewrite list_lookup_fmap, Hj, <-Ht, <-Hm.
    + by rewrite list_lookup_fmap, (si_root _ _ I).
  - apply (si_count _ _ I).
Qed.

(** ** Cycles *)

(** The position of the first node with a given id (0 if there is none). *)
Definition rankOf (ns : list MindMapNode) (s : string) : nat :=
  default 0 (fst <$> list_find (λ n, id n = s) ns).

Lemma rankOf_lookup ns i n :
  NoDup (id <$> ns) → ns !! i = Some n → rankOf ns (id n) = i.
Proof.
  intros Hnd Hi. unfold rankOf.
  assert (list_find (λ n', id n' = id n) ns = Some (i, n)) as ->; [|done].
  apply list_find_Some. split_and!; [done..|].
  intros j y Hj Hlt Heq.
  assert (j = i); [|lia].
  apply (NoDup_lookup _ j i (id n) Hnd).
  - by rewrite list_lookup_fmap, Hj, <-Heq.
  - by rewrite list_lookup_fmap, Hi.
Qed.

Lemma StoreInv_link_rank ns ls l :
  StoreInv ns ls → l ∈ ls →
  rankOf ns (source l) ≤ rankOf ns (target l)
  ∧ (rankOf ns (source l) = rankOf ns (target l) → source l = target l).
Proof.
  intros I Hl. pose proof (StoreInv_NoDup_ids _ _ I) as Hnd.
  destruct (si_rank _ _ I l Hl) as (i & j & n & m & Hi & Hs & Hj & Ht & Hle & _).
  rewrite <-Hs, <-Ht, (rankOf_lookup _ _ _ Hnd Hi), (rankOf_lookup _ _ _ Hnd Hj).
  split; [done|]. intros ->. congruence.
Qed.

Lemma linkPath_rank_le (rank : string → nat) ls n a b :
  (∀ l, l ∈ ls → rank (source l) ≤ rank (target l)) →
  linkPath ls n a b → rank a ≤ rank b.
Proof.
  intros Hr. induction 1 as [a|n a l _ IH Hl]; [done|].
  specialize (Hr l Hl). lia.
Qed.

(** X6. The only cycles that merges from the initial state can build are
    links from a node to itself: if one or more links lead from an id back
    to itself, the link from that id to itself is stored. *)
Theorem only_self_cycles (now : Z) (answers : list (list GraphUpdateNode))
    (n : nat) (a : string) :
  linkPath (mindMapLinks (session answers (INITIAL_STATE now))) (S n) a a →
  {| source := a; target := a |}
  ∈ mindMapLinks (session answers (INITIAL_STATE now)).
Proof.
  pose proof (session_StoreInv now answers) as I.
  set (ns := mindMapNodes (session answers (INITIAL_STATE now))) in *.
  set (ls := mindMapLinks (session answers (INITIAL_STATE now))) in *.
  intros (l & Hl & Ht & Hp)%linkPath_last.
  assert (rankOf ns a ≤ rankOf ns (source l)) as H1.
  { apply (linkPath_rank_le (rankOf ns) ls n); [|done].
    intros l' Hl'. by apply (StoreInv_link_rank ns ls). }
  destruct (StoreInv_link_rank ns ls l I Hl) as [H2 H3].
  rewrite Ht in H2, H3. assert (source l = a) as Hs by (apply H3; lia).
  destruct l as [s t]. simpl in *. by subst.
Qed.

Lemma only_self_cycles_witness :
  {| source := "Travel"; target := "Travel" |}
  ∈ mindMapLinks (session [ [topic "Travel" active "travel"] ]
                          (INITIAL_STATE 0)).
Proof.
  apply (only_self_cycles 0 [ [topic "Travel" active "travel"] ] 0 "Travel").
  apply (path_link _ 0 "Travel" {| source := "Travel"; target := "Travel" |});
    [constructor|].
  vm_compute. apply list_elem_of_here.
Defined.

(** ** The graph is a tree when no candidate names itself as parent *)

(** The candidate's parent label differs from its own label, also up to
    case. *)
Definition parentDiffers (c : GraphUpdateNode) : Prop :=
  toLowerCase (upd_parent c) ≠ toLowerCase (upd_label c).

#[global] Instance parentDiffers_dec c : Decision (parentDiffers c).
Proof. unfold parentDiffers. apply _. Defined.









Definition sampleAnswers : list (list GraphUpdateNode) :=
  [ [ topic "Travel" active "Context"; topic "Paris" potential "travel" ];
    [ topic "Food" active "Nowhere"; topic "paris" active "Travel" ] ].





(** ** Candidates that bring nothing new *)

(** X9. A merge whose candidates are all known leaves the whole state as it
    is: when every candidate's label is found among the stored nodes and
    the node found is active whenever the candidate is, [triggerGraphUpdate]
    returns the state unchanged. *)
Theorem known_topics_change_nothing (updates : list GraphUpdateNode)
    (s : DojoState) :
  Forall (settled (mindMapNodes s)) updates →
  triggerGraphUpdate updates s = s.
Proof.
  intros H. unfold triggerGraphUpdate. case_decide; [|done].
  unfold applyUpdates. fold (mergeAll updates (mindMapNodes s, mindMapLinks s)).
  rewrite (mergeAll_settled _ _ _ H). by destruct s.
Qed.

Lemma travelSuggested_settled :
  Forall (settled (mindMapNodes travelSuggested))
         [ topic "TRAVEL" potential "Context"; topic "context" active "Travel" ].
Proof.
  repeat constructor.
  - exists 1, (stored "Travel" potential). split; [vm_compute; reflexivity|].
    intros H. discriminate H.
  - exists 0, rootNode. split; [vm_compute; reflexivity|done].
Qed.

Lemma known_topics_change_nothing_witness :
  triggerGraphUpdate
    [ topic "TRAVEL" potential "Context"; topic "context" active "Travel" ]
    travelSuggested
  = travelSuggested.
Proof.
  exact (known_topics_change_nothing
           [ topic "TRAVEL" potential "Context";
             topic "context" active "Travel" ]
           travelSuggested travelSuggested_settled).
Defined.

(** ** Where a new node is linked *)

(** The id a new node is linked under, in a state built from the initial
    one: the first stored node carrying the parent label, else the root,
    unless the candidate names itself as parent. *)
Definition resolvedParent (ns : list MindMapNode) (c : GraphUpdateNode)
    : string :=
  match list_find (sameLabel (upd_parent c)) ns with
  | Some (_, q) => id q
  | None => if decide (parentDiffers c) then "Context" else upd_label c
  end.




Example new_node_link_sample :
  resolvedParent (mindMapNodes (session sampleAnswers (INITIAL_STATE 0)))
    <$> [ topic "Louvre" potential "PARIS"; topic "Wine" active "Cellar";
          topic "Echo" active "echo" ]
  = ["Paris"; "Context"; "Echo"].
Proof. vm_compute. reflexivity. Qed.

(** * The conversation handlers ([src/App.tsx]) *)

(** ** Embedding *)

#[global] Instance Role_eq_dec : EqDecision Role.
Proof. solve_decision. Defined.

(** [BrainResponse] of [src/types.ts]; [reply_text] is optional,
    [coach_guidance] and [key_concept] may be [null]. *)
Record BrainResponse := {
  reply_text : option string;
  english_user_translation : string;
  english_agent_translation : string;
  coach_guidance : option string;
  key_concept : option string
}.

(** [getFallbackResponse] of the service, returned when a request fails. *)
Definition getFallbackResponse (userText agentText : string) : BrainResponse :=
  {| reply_text := Some "";
     english_user_translation := userText;
     english_agent_translation := agentText;
     coach_guidance := None;
     key_concept := None |}.

(** [s || null] on a string that may be absent: the empty string is falsy. *)
Definition orNull (s : option string) : option string :=
  match s with
  | Some "" => None
  | _ => s
  end.

(** [{ ...state, conversationHistory: h }] *)
Definition withHistory (state : DojoState) (h : list ChatMessage) : DojoState :=
  {| mode := mode state; currentTopic := currentTopic state;
     mindMapNodes := mindMapNodes state; mindMapLinks := mindMapLinks state;
     conversationHistory := h; lastGuidance := lastGuidance state |}.

(** [{ ...m, translatedText: t }] *)
Definition withTranslation (m : ChatMessage) (t : string) : ChatMessage :=
  {| role := role m; text := text m; translatedText := Some t;
     timestamp := timestamp m |}.

(** [{ role, text, timestamp: new Date() }] *)
Definition newMessage (r : Role) (t : string) (now : Z) : ChatMessage :=
  {| role := r; text := t; translatedText := None; timestamp := now |}.

(** [state => ({ ...state, conversationHistory: [...state.conversationHistory,
    msg] })] *)
Definition appendMessage (msg : ChatMessage) (state : DojoState) : DojoState :=
  withHistory state (conversationHistory state ++ [msg]).

(** [h[h.length - 1] = m] on a copy: on the empty array the index is -1,
    which adds no element. *)
Definition setLast (h : list ChatMessage) (m : ChatMessage) : list ChatMessage :=
  match h with
  | [] => []
  | _ => <[length h - 1 := m]> h
  end.

(** The second state update of [handleSendMessage], once the service has
    answered [brainData] to the message [userMsg]. *)
Definition addReply (brainData : BrainResponse) (userMsg : ChatMessage)
    (now : Z) (prev : DojoState) : DojoState :=
  let updatedUserMsg :=
    withTranslation userMsg (english_user_translation brainData) in
  let newDojoMsg :=
    {| role := model; text := default "" (reply_text brainData);
       translatedText := Some (english_agent_translation brainData);
       timestamp := now |} in
  let newHistory := setLast (conversationHistory prev) updatedUserMsg in
  {| mode := mode prev; currentTopic := currentTopic prev;
     mindMapNodes := mindMapNodes prev; mindMapLinks := mindMapLinks prev;
     conversationHistory := newHistory ++ [newDojoMsg];
     lastGuidance := orNull (coach_guidance brainData) |}.

(** The loop of [handleAgentStoppedSpeaking] that looks for the last user
    message, from index [n - 1] down to 0. *)
Fixpoint scanForUser (hist : list ChatMessage) (n : nat) (lastUserText : string)
    : string :=
  match n with
  | 0 => lastUserText
  | S i =>
      match hist !! i with
      | Some m => if decide (role m = user) then text m
                  else scanForUser hist i lastUserText
      | None => scanForUser hist i lastUserText
      end
  end.

(** [lastUserText] as [handleAgentStoppedSpeaking] computes it. *)
Definition lastUserText (hist : list ChatMessage) : string :=
  scanForUser hist (length hist) "User input".

(** [roles.lastIndexOf(r)], searching from index [n - 1] down to 0; [None]
    stands for -1. *)
Fixpoint lastIndexBelow (roles : list Role) (r : Role) (n : nat) : option nat :=
  match n with
  | 0 => None
  | S i => if decide (roles !! i = Some r) then Some i
           else lastIndexBelow roles r i
  end.

Definition lastIndexOf (roles : list Role) (r : Role) : option nat :=
  lastIndexBelow roles r (length roles).

(** [if (idx !== -1) hist[idx] = { ...hist[idx], translatedText: t }] *)
Definition translateAt (idx : option nat) (t : string)
    (hist : list ChatMessage) : list ChatMessage :=
  match idx with
  | Some i =>
      match hist !! i with
      | Some m => <[i := withTranslation m t]> hist
      | None => hist
      end
  | None => hist
  end.

(** The state update of [handleAgentStoppedSpeaking] once the analysis
    [brainData] has arrived. *)
Definition applyAnalysis (brainData : BrainResponse) (prev : DojoState)
    : DojoState :=
  let hist := conversationHistory prev in
  let userIdx := lastIndexOf (role <$> hist) user in
  let hist := translateAt userIdx (english_user_translation brainData) hist in
  let agentIdx := lastIndexOf (role <$> hist) model in
  let hist := translateAt agentIdx (english_agent_translation brainData) hist in
  {| mode := mode prev; currentTopic := currentTopic prev;
     mindMapNodes := mindMapNodes prev; mindMapLinks := mindMapLinks prev;
     conversationHistory := hist;
     lastGuidance := orNull (coach_guidance brainData) |}.

(** The component state that the voice handlers touch: the session state,
    the two streaming texts shown, and the two refs that mirror them. *)
Record VoiceState := {
  dojoState : DojoState;
  streamingUser : string;
  streamingAgent : string;
  streamingUserRef : string;
  streamingAgentRef : string
}.

(** What the voice widget reports. *)
Inductive VoiceEvent :=
| UserTranscript (text : string)
| AgentResponse (text : string)
| AgentStartedSpeaking (now : Z)
| AgentStoppedSpeaking (now : Z).

(** [handleVoiceUserTranscript], [handleVoiceAgentResponse],
    [handleAgentStartedSpeaking] and the part of
    [handleAgentStoppedSpeaking] that runs before the analysis is awaited. *)
Definition voiceStep (st : VoiceState) (e : VoiceEvent) : VoiceState :=
  match e with
  | UserTranscript t =>
      {| dojoState := dojoState st;
         streamingUser := t; streamingAgent := streamingAgent st;
         streamingUserRef := t; streamingAgentRef := streamingAgentRef st |}
  | AgentResponse t =>
      {| dojoState := dojoState st;
         streamingUser := streamingUser st;
         streamingAgent := streamingAgent st +:+ t;
         streamingUserRef := streamingUserRef st;
         streamingAgentRef := streamingAgentRef st +:+ t |}
  | AgentStartedSpeaking now =>
      let finalText := streamingUserRef st in
      {| dojoState :=
           if decide (finalText = "") then dojoState st
           else appendMessage (newMessage user finalText now) (dojoState st);
         streamingUser := ""; streamingAgent := streamingAgent st;
         streamingUserRef := ""; streamingAgentRef := streamingAgentRef st |}
  | AgentStoppedSpeaking now =>
      let finalText := streamingAgentRef st in
      {| dojoState :=
           if decide (finalText = "") then dojoState st
           else appendMessage (newMessage model finalText now) (dojoState st);
         streamingUser := streamingUser st; streamingAgent := "";
         streamingUserRef := streamingUserRef st; streamingAgentRef := "" |}
  end.

Definition voiceRun (events : list VoiceEvent) (st : VoiceState) : VoiceState :=
  fold_left voiceStep events st.

(** [handleReset] *)
Definition handleReset (now : Z) (st : VoiceState) : VoiceState :=
  {| dojoState := withHistory (INITIAL_STATE now) [];
     streamingUser := ""; streamingAgent := "";
     streamingUserRef := ""; streamingAgentRef := "" |}.

(** The labels that [triggerGraphUpdate] hands to the service. *)
Definition activeLabels (ns : list MindMapNode) : list string :=
  label <$> filter (λ n, status n = active) ns.

(** [existingNodeLabels.slice(-10)] in [generateGraphUpdates]. *)
Definition recentNodes (existingNodeLabels : list string) : list string :=
  drop (length existingNodeLabels - 10) existingNodeLabels.

(** ** The text chat *)

Lemma setLast_snoc h m x : setLast (h ++ [m]) x = h ++ [x].
Proof.
  unfold setLast. destruct (h ++ [m]) as [|a l] eqn:E.
  - by destruct h.
  - rewrite <-E, length_app. simpl.
    replace (length h + 1 - 1) with (length h + 0) by lia.
    by rewrite insert_app_r.
Qed.

Lemma orNull_not_empty s : orNull s ≠ Some "".
Proof. destruct s as [[|a s]|]; done. Qed.

(** X11. One exchange of the text chat, with nothing happening in between:
    the two state updates of [handleSendMessage] leave the earlier history
    in place and add exactly two messages, the user's text with its English
    translation and then the model's reply (empty text when the response has
    none); nodes and links are untouched and the guidance is never the
    empty string. *)
Theorem send_message_exchange (brainData : BrainResponse) (userText : string)
    (sent answered : Z) (prev : DojoState) :
  conversationHistory
    (addReply brainData (newMessage user userText sent) answered
       (appendMessage (newMessage user userText sent) prev))
  = conversationHistory prev
    ++ [ {| role := user; text := userText;
            translatedText := Some (english_user_translation brainData);
            timestamp := sent |};
         {| role := model; text := default "" (reply_text brainData);
            translatedText := Some (english_agent_translation brainData);
            timestamp := answered |} ]
  ∧ mindMapNodes
      (addReply brainData (newMessage user userText sent) answered
         (appendMessage (newMessage user userText sent) prev))
    = mindMapNodes prev
  ∧ mindMapLinks
      (addReply brainData (newMessage user userText sent) answered
         (appendMessage (newMessage user userText sent) prev))
    = mindMapLinks prev
  ∧ lastGuidance
      (addReply brainData (newMessage user userText sent) answered
         (appendMessage (newMessage user userText sent) prev))
    ≠ Some "".
Proof.
  split_and!; try done.
  - unfold addReply, appendMessage, withHistory. cbn [conversationHistory].
    rewrite setLast_snoc. by rewrite <-app_assoc.
  - apply orNull_not_empty.
Qed.

(** X12. The reply update of [handleSendMessage] writes the translated user
    message over whatever message is last when it runs: a message that was
    appended in the meantime is replaced, and on an empty history (after
    Clear) the user's message is not recorded at all, only the reply. *)
Theorem reply_overwrites_last (brainData : BrainResponse)
    (userMsg : ChatMessage) (answered : Z) (prev : DojoState) :
  (conversationHistory prev = [] →
   conversationHistory (addReply brainData userMsg answered prev)
   = [ {| role := model; text := default "" (reply_text brainData);
          translatedText := Some (english_agent_translation brainData);
          timestamp := answered |} ])
  ∧ (∀ h m, conversationHistory prev = h ++ [m] →
            conversationHistory (addReply brainData userMsg answered prev)
            = h ++ [ withTranslation userMsg
                       (english_user_translation brainData);
                     {| role := model;
                        text := default "" (reply_text brainData);
                        translatedText :=
                          Some (english_agent_translation brainData);
                        timestamp := answered |} ]).
Proof.
  split.
  - intros E. unfold addReply. cbn [conversationHistory]. by rewrite E.
  - intros h m E. unfold addReply. cbn [conversationHistory].
    rewrite E, setLast_snoc. by rewrite <-app_assoc.
Qed.

(** X13. When a request to the service fails, the text chat still records
    the exchange: with the fallback response the user's message is stored
    with its own text as translation, an empty model message follows, and
    the guidance is cleared. *)
Theorem send_message_fallback (userText : string) (sent answered : Z)
    (prev : DojoState) :
  conversationHistory
    (addReply (getFallbackResponse userText "") (newMessage user userText sent)
       answered (appendMessage (newMessage user userText sent) prev))
  = conversationHistory prev
    ++ [ {| role := user; text := userText; translatedText := Some userText;
            timestamp := sent |};
         {| role := model; text := ""; translatedText := Some "";
            timestamp := answered |} ]
  ∧ lastGuidance
      (addReply (getFallbackResponse userText "") (newMessage user userText sent)
         answered (appendMessage (newMessage user userText sent) prev))
    = None.
Proof.
  split; [|done].
  unfold addReply, appendMessage, withHistory. cbn [conversationHistory].
  rewrite setLast_snoc. by rewrite <-app_assoc.
Qed.

(** ** The voice chat *)

Lemma scanForUser_skip hist n j d :
  j ≤ n →
  (∀ i m, j ≤ i → i < n → hist !! i = Some m → role m ≠ user) →
  scanForUser hist n d = scanForUser hist j d.
Proof.
  induction n as [|n IH]; intros Hj Hno.
  - by replace j with 0 by lia.
  - destruct (decide (j = S n)) as [->|Hne]; [done|].
    simpl. destruct (hist !! n) as [m|] eqn:E.
    + rewrite decide_False by (apply (Hno n m); [lia|lia|done]).
      apply IH; [lia|]. intros i m' ? ? ?. apply (Hno i m'); [lia|lia|done].
    + apply IH; [lia|]. intros i m' ? ? ?. apply (Hno i m'); [lia|lia|done].
Qed.

(** X14. The text that [handleAgentStoppedSpeaking] analyses as the user's
    side of the exchange is the text of the last user message of the
    history, and the placeholder "User input" when the history holds no
    user message. *)
Theorem last_user_text (hist : list ChatMessage) :
  (Forall (λ m, role m ≠ user) hist → lastUserText hist = "User input")
  ∧ (∀ h1 m h2, hist = h1 ++ m :: h2 → role m = user →
                Forall (λ m', role m' ≠ user) h2 →
                lastUserText hist = text m).
Proof.
  unfold lastUserText. split.
  - intros Hno. rewrite (scanForUser_skip hist (length hist) 0); [done|lia|].
    intros i m _ _ Hi. rewrite Forall_forall in Hno. apply Hno.
    by eapply list_elem_of_lookup_2.
  - intros h1 m h2 -> Hm Hno.
    rewrite (scanForUser_skip _ _ (S (length h1))).
    + simpl. rewrite list_lookup_middle by done. by rewrite decide_True.
    + rewrite length_app. simpl. lia.
    + intros i m' Hi _ Hl. rewrite Forall_forall in Hno. apply Hno.
      rewrite lookup_app_r in Hl by lia.
      destruct (i - length h1) as [|k] eqn:Ek; [lia|]. simpl in Hl.
      by eapply list_elem_of_lookup_2.
Qed.

Lemma lastIndexBelow_Some roles r n i :
  lastIndexBelow roles r n = Some i
  ↔ i < n ∧ roles !! i = Some r ∧ ∀ j, i < j → j < n → roles !! j ≠ Some r.
Proof.
  induction n as [|n IH]; simpl.
  - split; [done|]. intros [? _]. lia.
  - case_decide as Hn.
    + split.
      * intros [= <-]. split_and!; [lia|done|]. intros j ? ?. lia.
      * intros (Hi & Hr & Hno). f_equal.
        destruct (decide (i = n)) as [|Hne]; [done|].
        exfalso. apply (Hno n); [lia|lia|done].
    + rewrite IH. split.
      * intros (Hi & Hr & Hno). split_and!; [lia|done|].
        intros j ? ?. destruct (decide (j = n)) as [->|]; [done|].
        apply Hno; lia.
      * intros (Hi & Hr & Hno). split_and!; [|done|].
        -- destruct (decide (i = n)) as [->|]; [done|lia].
        -- intros j ? ?. apply Hno; lia.
Qed.

Lemma lastIndexBelow_None roles r n :
  lastIndexBelow roles r n = None ↔ ∀ j, j < n → roles !! j ≠ Some r.
Proof.
  induction n as [|n IH]; simpl.
  - split; [|done]. intros _ j ?. lia.
  - case_decide as Hn.
    + split; [done|]. intros Hno. exfalso. apply (Hno n); [lia|done].
    + rewrite IH. split.
      * intros Hno j ?. destruct (decide (j = n)) as [->|]; [done|].
        apply Hno. lia.
      * intros Hno j ?. apply Hno. lia.
Qed.

(** The message at position [i] is the last one of its role. *)
Definition lastOfRole (hist : list ChatMessage) (i : nat) (m : ChatMessage)
    : Prop :=
  Forall (λ m', role m' ≠ role m) (drop (S i) hist).

Lemma lastOfRole_lastIndexOf hist i m :
  hist !! i = Some m →
  lastOfRole hist i m ↔ lastIndexOf (role <$> hist) (role m) = Some i.
Proof.
  intros Hi. unfold lastOfRole, lastIndexOf. rewrite lastIndexBelow_Some.
  rewrite length_fmap, Forall_lookup. split.
  - intros Hno. split_and!.
    + by eapply lookup_lt_Some.
    + by rewrite list_lookup_fmap, Hi.
    + intros j Hj _ Hr. rewrite list_lookup_fmap in Hr.
      destruct (hist !! j) as [m'|] eqn:Ej; [|done].
      simpl in Hr. apply (Hno (j - S i) m').
      * rewrite lookup_drop. by replace (S i + (j - S i)) with j by lia.
      * congruence.
  - intros (_ & _ & Hno) k m' Hk Hr. rewrite lookup_drop in Hk.
    apply (Hno (S i + k)); [lia|by eapply lookup_lt_Some|].
    rewrite list_lookup_fmap, Hk. simpl. by rewrite Hr.
Qed.

Lemma translateAt_roles idx t hist :
  role <$> translateAt idx t hist = role <$> hist.
Proof.
  unfold translateAt. destruct idx as [i|]; [|done].
  destruct (hist !! i) as [m|] eqn:E; [|done].
  rewrite list_fmap_insert. simpl. apply list_insert_id.
  by rewrite list_lookup_fmap, E.
Qed.

Lemma translateAt_lookup idx t hist i m :
  hist !! i = Some m →
  translateAt idx t hist !! i
  = Some (if decide (idx = Some i) then withTranslation m t else m).
Proof.
  intros Hi. unfold translateAt. destruct idx as [k|].
  - destruct (hist !! k) as [m'|] eqn:E.
    + destruct (decide (k = i)) as [->|Hne].
      * rewrite decide_True by done.
        rewrite list_lookup_insert_eq by (by eapply lookup_lt_Some).
        congruence.
      * rewrite decide_False by congruence.
        by rewrite list_lookup_insert_ne.
    + rewrite decide_False; [done|]. intros [= ->]. congruence.
  - by rewrite decide_False.
Qed.

Definition translationFor (brainData : BrainResponse) (r : Role) : string :=
  match r with
  | user => english_user_translation brainData
  | model => english_agent_translation brainData
  end.

(** X15. The analysis update of the voice chat keeps every message in its
    place with its role, text and time stamp; it sets the English
    translation of the last user message and of the last model message, and
    of no other message; nodes and links are untouched. *)
Theorem analysis_translates_last (brainData : BrainResponse)
    (prev : DojoState) (i : nat) (m : ChatMessage) :
  conversationHistory prev !! i = Some m →
  conversationHistory (applyAnalysis brainData prev) !! i
  = Some (if decide (lastOfRole (conversationHistory prev) i m)
          then withTranslation m (translationFor brainData (role m))
          else m)
  ∧ length (conversationHistory (applyAnalysis brainData prev))
    = length (conversationHistory prev)
  ∧ mindMapNodes (applyAnalysis brainData prev) = mindMapNodes prev
  ∧ mindMapLinks (applyAnalysis brainData prev) = mindMapLinks prev.
Proof.
  intros Hi. split_and!; [| |done|done].
  - unfold applyAnalysis. cbn [conversationHistory].
    set (hist := conversationHistory prev) in *.
    rewrite translateAt_roles.
    set (u := lastIndexOf (role <$> hist) user).
    set (a := lastIndexOf (role <$> hist) model).
    pose proof (lastOfRole_lastIndexOf hist i m Hi) as Hlast.
    pose proof (translateAt_lookup u (english_user_translation brainData)
                  hist i m Hi) as H1.
    rewrite (translateAt_lookup a (english_agent_translation brainData)
               _ i _ H1).
    f_equal.
    assert (∀ r, lastIndexOf (role <$> hist) r = Some i → r = role m) as Hrole.
    { intros r (_ & Hr & _)%lastIndexBelow_Some.
      rewrite list_lookup_fmap, Hi in Hr. by inversion Hr. }
    destruct (decide (lastOfRole hist i m)) as [Hl|Hl].
    + apply Hlast in Hl. clear Hlast. destruct (role m) eqn:Er; simpl.
      * rewrite (decide_True (P := u = Some i)) by done.
        rewrite (decide_False (P := a = Some i)); [done|].
        intros Ha. by specialize (Hrole _ Ha).
      * rewrite (decide_False (P := u = Some i)).
        2:{ intros Hu. by specialize (Hrole _ Hu). }
        by rewrite (decide_True (P := a = Some i)) by done.
    + assert (∀ r, lastIndexOf (role <$> hist) r ≠ Some i) as Hnone.
      { intros r Hr. apply Hl, Hlast. by rewrite <-(Hrole r Hr). }
      rewrite (decide_False (P := a = Some i)) by apply Hnone.
      by rewrite (decide_False (P := u = Some i)) by apply Hnone.
  - unfold applyAnalysis. cbn [conversationHistory].
    rewrite <-!(length_fmap role), !translateAt_roles. done.
Qed.

Definition sampleHistory : list ChatMessage :=
  [ newMessage model "Hallo!" 1; newMessage user "Guten Tag" 2;
    newMessage user "Wie geht es?" 3; newMessage model "Gut, danke." 4 ].

Definition sampleAnalysis : BrainResponse :=
  {| reply_text := None;
     english_user_translation := "How are you?";
     english_agent_translation := "Fine, thanks.";
     coach_guidance := Some ""; key_concept := None |}.

Lemma analysis_translates_last_witness :
  conversationHistory
    (applyAnalysis sampleAnalysis
       (withHistory (INITIAL_STATE 0) sampleHistory)) !! 2
  = Some (if decide (lastOfRole
                       (conversationHistory
                          (withHistory (INITIAL_STATE 0) sampleHistory))
                       2 (newMessage user "Wie geht es?" 3))
          then withTranslation (newMessage user "Wie geht es?" 3)
                 (translationFor sampleAnalysis
                    (role (newMessage user "Wie geht es?" 3)))
          else newMessage user "Wie geht es?" 3)
  ∧ length (conversationHistory
              (applyAnalysis sampleAnalysis
                 (withHistory (INITIAL_STATE 0) sampleHistory)))
    = length (conversationHistory
                (withHistory (INITIAL_STATE 0) sampleHistory))
  ∧ mindMapNodes (applyAnalysis sampleAnalysis
                    (withHistory (INITIAL_STATE 0) sampleHistory))
    = mindMapNodes (withHistory (INITIAL_STATE 0) sampleHistory)
  ∧ mindMapLinks (applyAnalysis sampleAnalysis
                    (withHistory (INITIAL_STATE 0) sampleHistory))
    = mindMapLinks (withHistory (INITIAL_STATE 0) sampleHistory).
Proof.
  exact (analysis_translates_last sampleAnalysis
           (withHistory (INITIAL_STATE 0) sampleHistory) 2
           (newMessage user "Wie geht es?" 3) eq_refl).
Defined.

Example analysis_sample :
  translatedText <$>
    conversationHistory
      (applyAnalysis sampleAnalysis
         (withHistory (INITIAL_STATE 0) sampleHistory))
  = [None; None; Some "How are you?"; Some "Fine, thanks."]
  ∧ lastGuidance (applyAnalysis sampleAnalysis
                    (withHistory (INITIAL_STATE 0) sampleHistory)) = None.
Proof. vm_compute. done. Qed.





Definition quietVoice : VoiceState :=
  {| dojoState := INITIAL_STATE 0; streamingUser := ""; streamingAgent := "";
     streamingUserRef := ""; streamingAgentRef := "" |}.



(** The chunks of one agent turn, glued in the order received. *)
Definition glue (chunks : list string) : string :=
  foldr String.append "" chunks.

Lemma string_app_nil_r (s : string) : s +:+ "" = s.
Proof.
  induction s as [|a s IH]; [done|].
  change (String a (s +:+ "") = String a s). by rewrite IH.
Qed.

Lemma string_app_assoc (s t u : string) : (s +:+ t) +:+ u = s +:+ (t +:+ u).
Proof.
  induction s as [|a s IH]; [done|].
  change (String a ((s +:+ t) +:+ u) = String a (s +:+ (t +:+ u))).
  by rewrite IH.
Qed.

Lemma voiceRun_chunks chunks st :
  streamingAgentRef (voiceRun (AgentResponse <$> chunks) st)
  = streamingAgentRef st +:+ glue chunks
  ∧ dojoState (voiceRun (AgentResponse <$> chunks) st) = dojoState st
  ∧ streamingUserRef (voiceRun (AgentResponse <$> chunks) st)
    = streamingUserRef st.
Proof.
  revert st. induction chunks as [|c cs IH]; intros st.
  - change (voiceRun (AgentResponse <$> []) st) with st.
    change (glue []) with "". by rewrite string_app_nil_r.
  - change (voiceRun (AgentResponse <$> c :: cs) st)
      with (voiceRun (AgentResponse <$> cs) (voiceStep st (AgentResponse c))).
    destruct (IH (voiceStep st (AgentResponse c))) as (-> & -> & ->).
    change (glue (c :: cs)) with (c +:+ glue cs).
    cbn [voiceStep streamingAgentRef dojoState streamingUserRef].
    by rewrite string_app_assoc.
Qed.

(** X17. One agent turn of the voice chat: when the agent's text arrives in
    chunks and the agent then stops speaking, the history gains exactly one
    model message whose text is the chunks glued in the order received, or
    nothing when all chunks are empty; the streaming text is cleared. *)
Theorem agent_turn_committed (chunks : list string) (now : Z)
    (st : VoiceState) :
  streamingAgentRef st = "" →
  dojoState (voiceRun ((AgentResponse <$> chunks) ++ [AgentStoppedSpeaking now])
                      st)
  = (if decide (glue chunks = "") then dojoState st
     else appendMessage (newMessage model (glue chunks) now) (dojoState st))
  ∧ streamingAgentRef
      (voiceRun ((AgentResponse <$> chunks) ++ [AgentStoppedSpeaking now]) st)
    = ""
  ∧ streamingAgent
      (voiceRun ((AgentResponse <$> chunks) ++ [AgentStoppedSpeaking now]) st)
    = "".
Proof.
  intros Hempty. unfold voiceRun. rewrite fold_left_app.
  fold (voiceRun (AgentResponse <$> chunks) st).
  destruct (voiceRun_chunks chunks st) as (H1 & H2 & _).
  cbn [fold_left voiceStep dojoState streamingAgentRef streamingAgent].
  rewrite H1, H2, Hempty. done.
Qed.

Lemma agent_turn_committed_witness :
  dojoState (voiceRun ((AgentResponse <$> ["Guten "; ""; "Tag"])
                       ++ [AgentStoppedSpeaking 7]) quietVoice)
  = (if decide (glue ["Guten "; ""; "Tag"] = "") then dojoState quietVoice
     else appendMessage (newMessage model (glue ["Guten "; ""; "Tag"]) 7)
            (dojoState quietVoice))
  ∧ streamingAgentRef
      (voiceRun ((AgentResponse <$> ["Guten "; ""; "Tag"])
                 ++ [AgentStoppedSpeaking 7]) quietVoice)
    = ""
  ∧ streamingAgent
      (voiceRun ((AgentResponse <$> ["Guten "; ""; "Tag"])
                 ++ [AgentStoppedSpeaking 7]) quietVoice)
    = "".
Proof.
  exact (agent_turn_committed ["Guten "; ""; "Tag"] 7 quietVoice eq_refl).
Defined.

(** ** What the topic-extraction service is told *)

Lemma activeLabels_elem ns l :
  l ∈ activeLabels ns ↔ ∃ n, n ∈ ns ∧ label n = l ∧ status n = active.
Proof.
  unfold activeLabels. rewrite list_elem_of_fmap. split.
  - intros (n & -> & [Hs Hn]%list_elem_of_filter). by exists n.
  - intros (n & Hn & <- & Hs). exists n. split; [done|].
    by apply list_elem_of_filter.
Qed.

(** X18. The labels handed to the topic-extraction service are labels of
    stored nodes that are active, at most 10 of them, the most recent ones
    in the order stored. In a state built from the initial one the root
    label "Context" is among them exactly as long as at most 10 nodes are
    active. *)
Theorem recent_labels (now : Z) (answers : list (list GraphUpdateNode)) :
  length (recentNodes
            (activeLabels (mindMapNodes (session answers (INITIAL_STATE now)))))
  ≤ 10
  ∧ recentNodes
      (activeLabels (mindMapNodes (session answers (INITIAL_STATE now))))
    `suffix_of`
    activeLabels (mindMapNodes (session answers (INITIAL_STATE now)))
  ∧ Forall (λ l, ∃ n, n ∈ mindMapNodes (session answers (INITIAL_STATE now))
                      ∧ label n = l ∧ status n = active)
           (recentNodes
              (activeLabels
                 (mindMapNodes (session answers (INITIAL_STATE now)))))
  ∧ ("Context"
     ∈ recentNodes
         (activeLabels (mindMapNodes (session answers (INITIAL_STATE now))))
     ↔ length (activeLabels
                 (mindMapNodes (session answers (INITIAL_STATE now))))
       ≤ 10).
Proof.
  pose proof (session_StoreInv now answers) as I.
  set (ns := mindMapNodes (session answers (INITIAL_STATE now))) in *.
  unfold recentNodes. split_and!.
  - rewrite length_drop. lia.
  - apply suffix_drop.
  - apply Forall_forall. intros l Hl%subseteq_drop. by apply activeLabels_elem.
  - pose proof (si_root _ _ I) as Hroot.
    destruct ns as [|r tl] eqn:Ens; [done|]. simpl in Hroot.
    inversion Hroot; subst r.
    assert (activeLabels (rootNode :: tl) = "Context" :: activeLabels tl) as ->.
    { unfold activeLabels. by rewrite filter_cons_True. }
    assert ("Context" ∉ activeLabels tl) as Hnot.
    { intros (n & (k & Hk)%list_elem_of_lookup & Hl & _)%activeLabels_elem.
      assert (S k = 0); [|lia].
      apply (si_distinct _ _ I (S k) 0 n rootNode); [done|done|].
      by rewrite Hl. }
    cbn [length].
    destruct (decide (S (length (activeLabels tl)) ≤ 10)) as [Hle|Hgt].
    + replace (S (length (activeLabels tl)) - 10) with 0 by lia.
      split; [done|]. intros _. apply list_elem_of_here.
    + split; [|lia]. intros Hin. exfalso. apply Hnot.
      destruct (S (length (activeLabels tl)) - 10) as [|k] eqn:Ek; [lia|].
      simpl in Hin. by apply subseteq_drop in Hin.
Qed.

(** * Further properties of the layout helpers ([src/components/MindMap.tsx]) *)

(** ** The height of the drawing *)



(** ** How deep the traversal can get *)









(** ** The simulation tick *)

(** The width of a node's pill: [Math.max(100, charCount * 7 + 24)]. *)
Definition rectWidth (lbl : string) : nat :=
  Nat.max 100 (String.length lbl * 7 + 24).

(** [padding] of the tick handler. *)
Definition tickPadding : nat := 20.

(** [Math.max(w/2 + padding, Math.min(containerWidth - w/2 - padding, x))] *)
Definition clampX (containerWidth w : nat) (x : Q) : Q :=
  Qmax (num w / 2 + num tickPadding)
       (Qmin (num containerWidth - num w / 2 - num tickPadding) x).

(** What the tick handler does to one node, after the simulation has moved
    it: [d.width] is the pill width stored when the node was drawn. *)
Definition tickNode (containerWidth : nat) (d : SimulationNode)
    : SimulationNode :=
  let width := rectWidth (label (datum d)) in
  let w := if decide (width = 0) then 100 else width in
  {| datum := datum d;
     position := {| x := clampX containerWidth w (x (position d));
                    y := y (position d);
                    vx := vx (position d);
                    vy := vy (position d) |} |}.

(** [nodePositions.current.set(d.id, { x, y, vx, vy })] for each node. *)
Definition cachePositions (nodePositions : gmap string Position)
    (sns : list SimulationNode) : gmap string Position :=
  fold_left (λ cache d, <[id (datum d) := position d]> cache) sns nodePositions.

(** One tick: the nodes as clamped, and the cache as written back. *)
Definition tick (containerWidth : nat) (nodePositions : gmap string Position)
    (sns : list SimulationNode) : gmap string Position * list SimulationNode :=
  let sns := tickNode containerWidth <$> sns in
  (cachePositions nodePositions sns, sns).

Lemma num_le (a b : nat) : a ≤ b → (num a <= num b)%Q.
Proof. intros H. unfold num. rewrite <-Zle_Qle. lia. Qed.



(** ** Positions survive a change of the graph *)





Definition onScreen : list SimulationNode :=
  [ {| datum := rootNode;
       position := {| x := 2000%Q; y := 60%Q; vx := 0%Q; vy := 0%Q |} |};
    {| datum := stored "Travel" potential;
       position := {| x := 300%Q; y := 182%Q; vx := (1 # 2)%Q;
                      vy := (-3 # 4)%Q |} |} ].



Example positions_survive_sample :
  position <$> simulationNodes 1024 (tick 800 ∅ onScreen).1
                 (INITIAL_NODES
                  ++ [stored "Travel" active; stored "Paris" potential])
                 [ {| source := "Context"; target := "Travel" |};
                   {| source := "Travel"; target := "Paris" |} ]
  = [ {| x := 800 - 100 / 2 - 20; y := 60%Q; vx := 0%Q; vy := 0%Q |};
      {| x := 300%Q; y := 182%Q; vx := (1 # 2)%Q; vy := (-3 # 4)%Q |};
      {| x := (1024 # 1) / 2; y := 300%Q; vx := 0%Q; vy := 0%Q |} ].
Proof. vm_compute. done. Qed.

(** ** What the highlighted path consists of *)

Record PathChain (links : list MindMapLink) (targetId : string)
    (st : PathState) : Prop := {
  pc_current : currentId st ∈ path st;
  pc_ancestors : ∀ w, w ∈ path st →
                      ∃ j, j ≤ iterations st ∧ linkPath links j w targetId;
  pc_linked : ∀ w, w ∈ path st →
                   w = targetId
                   ∨ ∃ l, l ∈ links ∧ source l = w ∧ target l ∈ path st
}.

Lemma pathStart_chain links targetId :
  PathChain links targetId (pathStart targetId).
Proof.
  split; simpl.
  - set_solver.
  - intros w ->%elem_of_singleton. exists 0. split; [done|constructor].
  - intros w ->%elem_of_singleton. by left.
Qed.

Lemma pathIteration_chain links targetId st :
  PathChain links targetId st →
  PathChain links targetId (pathIteration links st).
Proof.
  intros C. unfold pathIteration. fold (parentLink links (currentId st)).
  assert (∀ w, w ∈ path st →
               ∃ j, j ≤ iterations st + 1 ∧ linkPath links j w targetId)
    as Hold.
  { intros w Hw. destruct (pc_ancestors _ _ _ C w Hw) as (j & Hj & Hp).
    exists j. split; [lia|done]. }
  destruct (parentLink links (currentId st)) as [l|] eqn:E;
    cbn [fmap option_fmap option_map]; [case_decide as Hin|].
  - split; cbn [path currentId iterations]; [apply C|done|apply C].
  - apply parentLink_Some in E as [Hl Ht].
    split; cbn [path currentId iterations].
    + set_solver.
    + intros w [->%elem_of_singleton|Hw]%elem_of_union; [|by apply Hold].
      destruct (pc_ancestors _ _ _ C _ (pc_current _ _ _ C)) as (j & Hj & Hp).
      exists (S j). split; [lia|]. apply linkPath_cons; [done|].
      by rewrite Ht.
    + intros w [->%elem_of_singleton|Hw]%elem_of_union.
      * right. exists l. split_and!; [done..|].
        rewrite Ht. apply elem_of_union. right. apply (pc_current _ _ _ C).
      * destruct (pc_linked _ _ _ C w Hw) as [?|(l' & ? & ? & ?)]; [by left|].
        right. exists l'. split_and!; [done..|]. set_solver.
  - split; cbn [path currentId iterations]; [apply C|done|apply C].
Qed.

Lemma pathLoop_chain links targetId :
  PathChain links targetId (pathLoop links (pathStart targetId)).
Proof.
  apply (pathLoop_rule links (PathChain links targetId)).
  - intros st C _. by apply pathIteration_chain.
  - apply pathStart_chain.
Qed.

(** X23. The set that [getPathToRoot] returns holds only ancestors of the
    queried id: from each of its ids at most 100 links lead to the queried
    id, and each of its ids other than the queried one is the source of a
    link into the set. *)
Theorem path_holds_ancestors (targetId : string) (links : list MindMapLink)
    (w : string) :
  w ∈ getPathToRoot targetId links →
  (∃ j, j ≤ 100 ∧ linkPath links j w targetId)
  ∧ (w = targetId
     ∨ ∃ l, l ∈ links ∧ source l = w
            ∧ target l ∈ getPathToRoot targetId links).
Proof.
  unfold getPathToRoot. intros Hw.
  pose proof (pathLoop_chain links targetId) as C.
  pose proof (pathLoop_inv links targetId) as I.
  split.
  - destruct (pc_ancestors _ _ _ C w Hw) as (j & Hj & Hp).
    exists j. split; [|done]. pose proof (pinv_cap _ _ _ I). lia.
  - apply (pc_linked _ _ _ C w Hw).
Qed.

Lemma path_holds_ancestors_witness :
  (∃ j, j ≤ 100 ∧ linkPath (chainLinks 3) j "Context" (chainId 3))
  ∧ ("Context" = chainId 3
     ∨ ∃ l, l ∈ chainLinks 3 ∧ source l = "Context"
            ∧ target l ∈ getPathToRoot (chainId 3) (chainLinks 3)).
Proof.
  apply (path_holds_ancestors (chainId 3) (chainLinks 3) "Context").
  apply (bool_decide_unpack _). vm_compute. exact I.
Defined.

(** ** What is drawn for a selection *)






(** * The earlier layouts kept beside the current one *)

(** ** Node sizes of the force-directed variant
    (second component of [src/components/MindMap.tsx]) *)

(** [nodeDegree[k] = (nodeDegree[k] || 0) + 1] *)
Definition countEnd (nodeDegree : gmap string nat) (k : string)
    : gmap string nat :=
  <[k := default 0 (nodeDegree !! k) + 1]> nodeDegree.

(** The degree table filled by [links.forEach(l => ...)]. *)
Definition nodeDegree (links : list MindMapLink) : gmap string nat :=
  fold_left (λ deg l, countEnd (countEnd deg (source l)) (target l)) links ∅.






(** ** The tick of the earlier tree variant ([src/unnamed/part_002]) *)

(** [d.x = Math.max(padding, Math.min(width - padding, d.x));
     d.y = Math.max(padding, d.y)] with [padding = 30]. *)
Definition earlierTickNode (width : nat) (d : SimulationNode) : SimulationNode :=
  {| datum := datum d;
     position := {| x := Qmax 30 (Qmin (num width - 30) (x (position d)));
                    y := Qmax 30 (y (position d));
                    vx := vx (position d);
                    vy := vy (position d) |} |}.

(** X26. The tick of the earlier tree variant keeps a node at least 30 from
    the left and the top border, and at least 30 from the right border when
    the container is at least 60 wide; it never moves a node up, so a deep
    tree is not squashed at the bottom, and a node that is inside is not
    moved. *)
Theorem earlier_tick_bounds (width : nat) (d : SimulationNode) :
  (30 <= x (position (earlierTickNode width d)))%Q
  ∧ (30 <= y (position (earlierTickNode width d)))%Q
  ∧ (y (position d) <= y (position (earlierTickNode width d)))%Q
  ∧ (60 ≤ width →
     (x (position (earlierTickNode width d)) <= num width - 30)%Q)
  ∧ ((30 <= x (position d))%Q → (x (position d) <= num width - 30)%Q →
     (30 <= y (position d))%Q →
     (x (position (earlierTickNode width d)) == x (position d))%Q
     ∧ (y (position (earlierTickNode width d)) == y (position d))%Q).
Proof.
  unfold earlierTickNode. cbn [position x y].
  split_and!.
  - apply Q.le_max_l.
  - apply Q.le_max_l.
  - apply Q.le_max_r.
  - intros Hw. apply Q.max_lub; [|apply Q.le_min_l].
    pose proof (num_le 60 width Hw) as H. change (num 60) with (60 # 1)%Q in H.
    lra.
  - intros H1 H2 H3. split.
    + rewrite Q.min_r by done. by apply Q.max_r.
    + by apply Q.max_r.
Qed.

(** * How the pieces fit *)

(** ** Growth of the graph *)

Lemma mergeNode_sizes ns ls c :
  length ns ≤ length (mergeNode (ns, ls) c).1 ≤ length ns + 1
  ∧ length ls ≤ length (mergeNode (ns, ls) c).2 ≤ length ls + 1.
Proof.
  destruct (list_find (sameLabel (upd_label c)) ns) as [[i ex]|] eqn:E.
  - rewrite (mergeNode_found _ _ _ _ _ E). simpl.
    case_decide; rewrite ?length_insert; lia.
  - rewrite (mergeNode_new _ _ _ E). simpl. rewrite length_app. simpl.
    destruct (parentOf ns c); [case_decide|]; rewrite ?length_app; simpl; lia.
Qed.

Lemma mergeAll_sizes updates ns ls :
  length ns ≤ length (mergeAll updates (ns, ls)).1
            ≤ length ns + length updates
  ∧ length ls ≤ length (mergeAll updates (ns, ls)).2
              ≤ length ls + length updates.
Proof.
  revert ns ls. induction updates as [|c cs IH]; intros ns ls.
  - simpl. lia.
  - rewrite mergeAll_cons. pose proof (mergeNode_sizes ns ls c) as H1.
    destruct (mergeNode (ns, ls) c) as [ns1 ls1]. simpl in H1.
    specialize (IH ns1 ls1). simpl. lia.
Qed.

(** X27. A merge never shrinks the graph and adds at most one node and at
    most one link per candidate. *)
Theorem merge_growth (updates : list GraphUpdateNode) (s : DojoState) :
  length (mindMapNodes s)
  ≤ length (mindMapNodes (triggerGraphUpdate updates s))
  ≤ length (mindMapNodes s) + length updates
  ∧ length (mindMapLinks s)
    ≤ length (mindMapLinks (triggerGraphUpdate updates s))
    ≤ length (mindMapLinks s) + length updates.
Proof.
  destruct (triggerGraphUpdate_mergeAll updates s) as [-> ->].
  apply mergeAll_sizes.
Qed.

(** ** Tiers follow the links *)

Lemma distance_functional links v d1 d2 :
  distance links v d1 → distance links v d2 → d1 = d2.
Proof.
  intros [Hp1 Hm1] [Hp2 Hm2]. specialize (Hm1 _ Hp2). specialize (Hm2 _ Hp1).
  lia.
Qed.



(** ** Tiers do not depend on the order of the links *)




